(** * Station allocation: a shallow embedding of [code.py]

    The development models [allocate_processes_to_stations], the totals
    computed by [generate_summary_report], [check_dependencies_met] and the
    bars drawn by [visualize_station_allocation], and proves the properties
    the specification states about them and further properties read off the
    code.

    Modelling choices.
    - A DataFrame is the list of its rows in table order; every row carries
      the five columns the allocator reads.
    - Durations are exact rationals ([Q]); the order and the sums are those
      of the rationals, so rounding of machine floats is not modelled.
    - [allocated_processes] is a finite set of ids ([gset string]).
    - The [while] loop of the dependency-respecting mode runs on fuel; running
      out of fuel is the outcome [None], and it is proved never to happen with
      the fuel the top-level function supplies. *)

From Stdlib Require Import QArith Qround DecimalNat DecimalString.
From stdpp Require Import gmap strings list.

Set Warnings "-clear-no-such-hyp".

Local Open Scope Q_scope.
Local Open Scope string_scope.
Local Open Scope list_scope.

(** ** Data model *)

(** One row of the process table. *)
Record process := {
  id : string;
  name : string;
  expectedTimeInMin : Q;
  machineType : string;
  dependency : list string
}.

(** The [{'id': ..., 'name': ...}] dictionaries stored in a station. *)
Record process_summary := {
  ps_id : string;
  ps_name : string
}.

(** The dictionary appended to [stations]. *)
Record station := {
  station_id : string;
  processes : list process_summary;
  total_expected_time : Q;
  waste_time : Q;
  machines_required : Z
}.

(** Outcome of a run: the [ValueError] of the validation, or the list under
    the key ['stations'] of the returned dictionary. *)
Inductive result :=
| ValueError (msg : string)
| Returned (stations : list station).

(** ** Helpers of the source *)

(** [sum(p['expectedTimeInMin'] for p in station_processes)]: Python's [sum]
    starts from [0] and adds from the left. The allocator writes the same
    expression in line (lines 87, 95 and 96). *)
Definition calculate_station_time (station_processes : list process) : Q :=
  fold_left (fun acc p => acc + expectedTimeInMin p) station_processes 0.

(** [all(dep in allocated_processes for dep in process['dependency'])], the
    test of lines 76 and 86. *)
Definition dependencies_allocated (allocated_processes : gset string)
    (deps : list string) : bool :=
  forallb (fun dep => bool_decide (dep ∈ allocated_processes)) deps.

(** [{'id': p['id'], 'name': p['name']}]. *)
Definition summary (p : process) : process_summary :=
  {| ps_id := id p; ps_name := name p |}.

(** [f"S{station_id}"]. *)
Definition station_label (n : nat) : string :=
  "S" ++ NilEmpty.string_of_uint (Nat.to_uint n).

(** ** Validation (lines 64-67) *)

(** [f"Process '{process_id}' has invalid dependency: '{dep}'"]. *)
Definition invalid_dependency_message (process_id dep : string) : string :=
  "Process '" ++ process_id ++ "' has invalid dependency: '" ++ dep ++ "'".

(** The inner [for dep in deps]: the first dependency that is not an id of
    the table. *)
Fixpoint first_missing (ids : list string) (deps : list string) : option string :=
  match deps with
  | [] => None
  | dep :: rest =>
      if bool_decide (dep ∈ ids) then first_missing ids rest else Some dep
  end.

(** The outer [for process_id, deps in ...items()]: the first violation in
    table order, as the pair of the process id and the missing id. *)
Fixpoint validate_rows (ids : list string) (rows : list process)
    : option (string * string) :=
  match rows with
  | [] => None
  | p :: rest =>
      match first_missing ids (dependency p) with
      | Some dep => Some (id p, dep)
      | None => validate_rows ids rest
      end
  end.

Definition validate_dependencies (df : list process) : option (string * string) :=
  validate_rows (id <$> df) df.

(** ** Dependency-respecting mode (lines 69-104) *)

(** The local variables the [while] loop updates. *)
Record loop_state := {
  st_stations : list station;
  st_station_id : nat;
  st_allocated : gset string
}.

(** The dictionary built at lines 92-98. *)
Definition close_station_A (station_id : nat) (throughput_target : Q)
    (current_station : list process) : station :=
  {| station_id := station_label station_id;
     processes := summary <$> current_station;
     total_expected_time := calculate_station_time current_station;
     waste_time := throughput_target - calculate_station_time current_station;
     machines_required := 1 |}.

(** One iteration of the inner [for _, next_process in df.iterrows()]
    (lines 83-89) on the pair [(current_station, allocated_processes)]. *)
Definition fill_step (machine_type : string) (throughput_target : Q)
    (acc : list process * gset string) (next_process : process)
    : list process * gset string :=
  let '(current_station, allocated) := acc in
  if bool_decide (id next_process ∈ allocated) then acc
  else if String.eqb (machineType next_process) machine_type
          && dependencies_allocated allocated (dependency next_process)
          && Qle_bool (calculate_station_time current_station
                       + expectedTimeInMin next_process) throughput_target
  then (current_station ++ [next_process], {[id next_process]} ∪ allocated)
  else acc.

Definition fill_station (df : list process) (machine_type : string)
    (throughput_target : Q) (acc : list process * gset string)
    : list process * gset string :=
  fold_left (fill_step machine_type throughput_target) df acc.

(** The outer [for _, process in df.iterrows()] up to its [break]: the first
    row that is not allocated and whose dependencies are all allocated. *)
Fixpoint find_seed (allocated : gset string) (rows : list process)
    : option process :=
  match rows with
  | [] => None
  | p :: rest =>
      if bool_decide (id p ∈ allocated) then find_seed allocated rest
      else if dependencies_allocated allocated (dependency p) then Some p
      else find_seed allocated rest
  end.

(** The body of the [while] loop. [None] is [found_new_station = False]. *)
Definition open_station (df : list process) (throughput_target : Q)
    (st : loop_state) : option loop_state :=
  match find_seed (st_allocated st) df with
  | None => None
  | Some p =>
      let '(current_station, allocated) :=
        fill_station df (machineType p) throughput_target
          ([p], {[id p]} ∪ st_allocated st) in
      Some {| st_stations :=
                st_stations st
                ++ [close_station_A (st_station_id st) throughput_target
                      current_station];
              st_station_id := S (st_station_id st);
              st_allocated := allocated |}
  end.

(** [while len(allocated_processes) < len(df)]. Fuel is spent only when the
    body runs; [None] means the fuel ran out. *)
Fixpoint while_loop (fuel : nat) (df : list process) (throughput_target : Q)
    (st : loop_state) : option loop_state :=
  if (size (st_allocated st) <? length df)%nat then
    match fuel with
    | O => None
    | S fuel' =>
        match open_station df throughput_target st with
        | None => Some st
        | Some st' => while_loop fuel' df throughput_target st'
        end
    end
  else Some st.

(** ** Throughput-grouped mode (lines 106-136) *)

(** Insertion sort of the group keys; [groupby] sorts its keys. *)
Fixpoint insert_key (k : string) (ks : list string) : list string :=
  match ks with
  | [] => [k]
  | k' :: rest =>
      if String.leb k k' then k :: ks else k' :: insert_key k rest
  end.

Definition sort_keys (ks : list string) : list string :=
  fold_right insert_key [] ks.

(** [df.groupby('machineType')]: the distinct machine types in sorted order,
    each with its rows in table order. *)
Definition groupby_machineType (df : list process)
    : list (string * list process) :=
  (fun k => (k, filter (fun p => machineType p = k) df))
  <$> sort_keys (remove_dups (machineType <$> df)).

(** The dictionary built at lines 117-123 and 129-135. *)
Definition close_station_B (station_id : nat) (throughput_target : Q)
    (station_processes : list process) (total_expected_time : Q) : station :=
  {| station_id := station_label station_id;
     processes := summary <$> station_processes;
     total_expected_time := total_expected_time;
     waste_time := throughput_target - total_expected_time;
     machines_required := Qceiling total_expected_time |}.

(** The variables updated while a group is scanned. *)
Record group_state := {
  gs_stations : list station;
  gs_station_id : nat;
  gs_station_processes : list process;
  gs_total_expected_time : Q
}.

(** One iteration of [for _, process in group.iterrows()] (lines 113-126). *)
Definition group_step (throughput_target : Q) (gs : group_state)
    (p : process) : group_state :=
  if Qle_bool (gs_total_expected_time gs + expectedTimeInMin p) throughput_target
  then {| gs_stations := gs_stations gs;
          gs_station_id := gs_station_id gs;
          gs_station_processes := gs_station_processes gs ++ [p];
          gs_total_expected_time :=
            gs_total_expected_time gs + expectedTimeInMin p |}
  else {| gs_stations :=
            gs_stations gs
            ++ [close_station_B (gs_station_id gs) throughput_target
                  (gs_station_processes gs) (gs_total_expected_time gs)];
          gs_station_id := S (gs_station_id gs);
          gs_station_processes := [p];
          gs_total_expected_time := expectedTimeInMin p |}.

(** One iteration of [for machine_type, group in machine_type_groups]
    (lines 110-136) on the pair [(stations, station_id)]. *)
Definition allocate_group (throughput_target : Q)
    (acc : list station * nat) (group : list process) : list station * nat :=
  let gs :=
    fold_left (group_step throughput_target) group
      {| gs_stations := acc.1; gs_station_id := acc.2;
         gs_station_processes := []; gs_total_expected_time := 0 |} in
  match gs_station_processes gs with
  | [] => (gs_stations gs, gs_station_id gs)
  | _ :: _ =>
      (gs_stations gs
       ++ [close_station_B (gs_station_id gs) throughput_target
             (gs_station_processes gs) (gs_total_expected_time gs)],
       S (gs_station_id gs))
  end.

Definition allocate_groups (df : list process) (throughput_target : Q)
    : list station :=
  (fold_left (allocate_group throughput_target)
     (snd <$> groupby_machineType df) ([], 1%nat)).1.

(** ** The allocator *)

Definition allocate_with_fuel (fuel : nat) (df : list process)
    (respect_dependencies : bool) (throughput_target : Q) : option result :=
  if respect_dependencies then
    match validate_dependencies df with
    | Some (process_id, dep) =>
        Some (ValueError (invalid_dependency_message process_id dep))
    | None =>
        match while_loop fuel df throughput_target
                {| st_stations := []; st_station_id := 1;
                   st_allocated := ∅ |} with
        | Some st => Some (Returned (st_stations st))
        | None => None
        end
    end
  else Some (Returned (allocate_groups df throughput_target)).

(** The loop body runs at most once per row, so [length df] is enough fuel. *)
Definition allocate_processes_to_stations (df : list process)
    (respect_dependencies : bool) (throughput_target : Q) : option result :=
  allocate_with_fuel (length df) df respect_dependencies throughput_target.

(** ** The summarizer (lines 142-144) *)

Record summary_totals := {
  total_stations : nat;
  total_waste_time : Q;
  total_machines_required : Z
}.

(** The three totals printed at the head of the report; the rendering of the
    text is not modelled. *)
Definition generate_summary_report (stations : list station) : summary_totals :=
  {| total_stations := length stations;
     total_waste_time :=
       fold_left (fun acc s => acc + waste_time s) stations 0;
     total_machines_required :=
       fold_left (fun acc s => (acc + machines_required s)%Z) stations 0%Z |}.

(** ** The scenario of the specification *)

(** The three-process table; the specification leaves the display names
    open. *)
Definition scenario_table (name_A name_B name_C : string) : list process :=
  [ {| id := "A"; name := name_A; expectedTimeInMin := 4 # 10;
       machineType := "M1"; dependency := [] |};
    {| id := "B"; name := name_B; expectedTimeInMin := 3 # 10;
       machineType := "M1"; dependency := ["A"] |};
    {| id := "C"; name := name_C; expectedTimeInMin := 5 # 10;
       machineType := "M2"; dependency := ["A"] |} ].

(** ** Properties used in the statements *)

(** Every declared dependency is the id of some row. *)
Definition valid_dependencies (df : list process) : Prop :=
  ∀ p d, p ∈ df → d ∈ dependency p → d ∈ id <$> df.

(** Sum of a list of rationals, by structural recursion. *)
Definition sum_Q (l : list Q) : Q := foldr Qplus 0 l.

Definition sum_Z (l : list Z) : Z := foldr Z.add 0%Z l.

(** The stations the dependency-respecting mode builds from the rows it put
    in each station, in the order the stations were opened. *)
Definition stations_of_rows_A (throughput_target : Q)
    (rows : list (list process)) : list station :=
  imap (λ i r, close_station_A (S i) throughput_target r) rows.

(** What holds of [(current_station, allocated_processes)] while a station
    seeded with [seed] is filled, [A0] being the set before the seed. *)
Record fill_inv (df : list process) (throughput_target : Q)
    (A0 : gset string) (seed : process)
    (acc : list process * gset string) : Prop := {
  fill_head : ∃ rest, acc.1 = seed :: rest;
  fill_alloc : acc.2 = list_to_set (id <$> acc.1) ∪ A0;
  fill_nodup : NoDup (id <$> acc.1);
  fill_fresh : ∀ p, p ∈ acc.1 → id p ∉ A0;
  fill_rows : ∀ p, p ∈ acc.1 → p ∈ df;
  fill_deps : ∀ p d, p ∈ acc.1 → d ∈ dependency p → d ∈ acc.2;
  fill_time :
    acc.1 = [seed] ∨ calculate_station_time acc.1 <= throughput_target
}.

(** What holds of the rows placed so far, station by station. *)
Record placement_A (df : list process) (throughput_target : Q)
    (rows : list (list process)) : Prop := {
  pl_nodup : NoDup (id <$> concat rows);
  pl_rows : ∀ r p, r ∈ rows → p ∈ r → p ∈ df;
  pl_nonempty : ∀ r, r ∈ rows → r ≠ [];
  pl_deps : ∀ i r p d,
    rows !! i = Some r → p ∈ r → d ∈ dependency p →
    ∃ j r', (j ≤ i)%nat ∧ rows !! j = Some r' ∧ d ∈ id <$> r';
  pl_time : ∀ r, r ∈ rows →
    calculate_station_time r <= throughput_target
    ∨ ∃ p, r = [p] ∧ throughput_target < expectedTimeInMin p
}.

(** The loop invariant: the state is the one built from the placed rows. *)
Definition loop_inv (df : list process) (throughput_target : Q)
    (rows : list (list process)) (st : loop_state) : Prop :=
  st_stations st = stations_of_rows_A throughput_target rows
  ∧ st_station_id st = S (length rows)
  ∧ st_allocated st = list_to_set (id <$> concat rows)
  ∧ placement_A df throughput_target rows.

(** A station of the throughput-grouped mode that holds the rows [r]. Its
    total was accumulated row by row, so it is the sum of [r] as a rational. *)
Definition built_B (throughput_target : Q) (r : list process) (s : station)
    : Prop :=
  processes s = summary <$> r
  ∧ total_expected_time s == calculate_station_time r
  ∧ waste_time s = throughput_target - total_expected_time s
  ∧ machines_required s = Qceiling (total_expected_time s).

(** What holds while a group is scanned: [rows0] are the rows of the stations
    closed before the group, and [done] the rows of the group scanned so far,
    which are the rows of the stations closed since then followed by the rows
    of the open station. *)
Definition group_inv (throughput_target : Q) (rows0 : list (list process))
    (done : list process) (gs : group_state) : Prop :=
  ∃ rows_g,
    Forall2 (built_B throughput_target) (rows0 ++ rows_g) (gs_stations gs)
    ∧ gs_total_expected_time gs
      == calculate_station_time (gs_station_processes gs)
    ∧ concat rows_g ++ gs_station_processes gs = done.

(** ** Further definitions: the rest of the source and its properties *)

(** [check_dependencies_met] (lines 42-43): [process_dependencies] is a
    dictionary from process ids to dependency lists, and an id that is not a
    key has no dependency ([.get(process_id, [])]). *)
Definition check_dependencies_met (process_id : string)
    (allocated_processes : gset string)
    (process_dependencies : gmap string (list string)) : bool :=
  forallb (fun dep => bool_decide (dep ∈ allocated_processes))
    (default [] (process_dependencies !! process_id)).

(** A station of the dependency-respecting mode: a seed of the table and,
    after it, rows of the table that share its machine type. *)
Definition one_type_station (df : list process) (throughput_target : Q)
    (s : station) : Prop :=
  ∃ k seed rest,
    s = close_station_A k throughput_target (seed :: rest)
    ∧ seed ∈ df
    ∧ ∀ p, p ∈ rest → p ∈ df ∧ machineType p = machineType seed.

(** The stations carry the labels S1, S2, ... in order, and the counter is
    the next number. *)
Definition numbered (sts : list station) (next_id : nat) : Prop :=
  station_id <$> sts = station_label <$> seq 1 (length sts)
  ∧ next_id = S (length sts).

(** ** The chart (lines 168-222)

    [visualize_station_allocation] is modelled by the bars it draws: the calls
    of [ax.barh], in order. The texts, the ticks and the legend are not
    modelled. *)

(** A colour of the chart: an entry of [plt.cm.tab20.colors], by its index,
    or ['gray']. *)
Inductive color :=
| Tab20 (i : nat)
| Gray.

(** The number of colours of [plt.cm.tab20]. *)
Definition tab20_size : nat := 20.

(** A value of [process_info_map]. *)
Record process_info := {
  info_expectedTimeInMin : Q;
  info_machineType : string
}.

(** [{'expectedTimeInMin': 0, 'machineType': 'Unknown'}]. *)
Definition unknown_process : process_info :=
  {| info_expectedTimeInMin := 0; info_machineType := "Unknown" |}.

(** [df.set_index('id')[[...]].to_dict(orient='index')]: pandas raises a
    [ValueError] when the index has a repeated entry ([None] here). *)
Definition process_info_map (df : list process)
    : option (gmap string process_info) :=
  if bool_decide (NoDup (id <$> df)) then
    Some (list_to_map
            ((fun p => (id p, {| info_expectedTimeInMin := expectedTimeInMin p;
                                 info_machineType := machineType p |}))
             <$> df))
  else None.

(** [Series.unique()]: the distinct values in the order of their first
    appearance. *)
Fixpoint unique_from (seen : list string) (values : list string)
    : list string :=
  match values with
  | [] => []
  | v :: rest =>
      if bool_decide (v ∈ seen) then unique_from seen rest
      else v :: unique_from (v :: seen) rest
  end.

Definition unique (values : list string) : list string :=
  unique_from [] values.

(** The dictionary comprehension over [enumerate(machine_types)], entry
    after entry. *)
Definition color_entries (entries : list (nat * string))
    (m : gmap string color) : gmap string color :=
  fold_left (fun m im => <[im.2 := Tab20 (im.1 mod tab20_size)]> m) entries m.

Definition machine_color_map (df : list process) : gmap string color :=
  color_entries (imap pair (unique (machineType <$> df))) ∅.

(** One call of [ax.barh(i, expected_time, left=start_time, color=color,
    label=machine_type)]. *)
Record bar := {
  bar_row : nat;
  bar_width : Q;
  bar_left : Q;
  bar_color : color;
  bar_label : string
}.

(** One iteration of [for process in processes] (lines 192-208) on the bars
    drawn so far and [start_time]. *)
Definition draw_process (info_map : gmap string process_info)
    (color_map : gmap string color) (i : nat) (acc : list bar * Q)
    (process : process_summary) : list bar * Q :=
  let process_info := default unknown_process (info_map !! ps_id process) in
  let expected_time := info_expectedTimeInMin process_info in
  let machine_type := info_machineType process_info in
  let color := default Gray (color_map !! machine_type) in
  (acc.1 ++ [ {| bar_row := i; bar_width := expected_time;
                 bar_left := acc.2; bar_color := color;
                 bar_label := machine_type |} ],
   acc.2 + expected_time).

(** The bars of the station drawn on row [i]; [start_time] starts at 0. *)
Definition draw_station (info_map : gmap string process_info)
    (color_map : gmap string color) (i : nat) (s : station) : list bar :=
  (fold_left (draw_process info_map color_map i) (processes s) ([], 0)).1.

Definition visualize_station_allocation (stations : list station)
    (df : list process) : option (list bar) :=
  match process_info_map df with
  | None => None
  | Some info_map =>
      Some (concat (imap (draw_station info_map (machine_color_map df))
                      stations))
  end.

(** ** Lists of lists *)

Section concat.

Context {A B : Type}.

Lemma elem_of_concat (x : A) (ls : list (list A)) :
  x ∈ concat ls ↔ ∃ l, x ∈ l ∧ l ∈ ls.
Proof.
  rewrite list_elem_of_In, in_concat. split.
  - intros (l & Hl & Hx). exists l. by rewrite !list_elem_of_In.
  - intros (l & Hx & Hl). exists l. by rewrite <- !list_elem_of_In.
Qed.

Lemma concat_fmap_fmap (f : A → B) (ls : list (list A)) :
  concat (fmap (M:=list) f <$> ls) = f <$> concat ls.
Proof.
  induction ls as [|l ls IH]; [done|]. simpl. rewrite fmap_app. by f_equal.
Qed.

(** A function that is injective on the ids of a list separates its rows. *)
Lemma NoDup_fmap_eq (f : A → B) (l : list A) (x y : A) :
  NoDup (f <$> l) → x ∈ l → y ∈ l → f x = f y → x = y.
Proof.
  induction l as [|z l IH]; simpl; [by intros _ ?%not_elem_of_nil|].
  intros [Hz Hnd]%NoDup_cons [->|Hx]%elem_of_cons [->|Hy]%elem_of_cons Heq;
    [done| | |by apply IH].
  - exfalso. apply Hz. rewrite Heq. by apply list_elem_of_fmap_2.
  - exfalso. apply Hz. rewrite <- Heq. by apply list_elem_of_fmap_2.
Qed.

End concat.

(** ** Validation *)

Section validation.

Lemma first_missing_None ids deps :
  first_missing ids deps = None ↔ ∀ d, d ∈ deps → d ∈ ids.
Proof.
  induction deps as [|d deps IH]; simpl.
  - split; [intros _ d Hd; inversion Hd | done].
  - case_bool_decide as Hd.
    + rewrite IH. split.
      * intros H x Hx. apply elem_of_cons in Hx as [->|Hx]; auto.
      * intros H x Hx. apply H. by right.
    + split; [done|]. intros H. exfalso. apply Hd, H. by left.
Qed.

Lemma first_missing_Some ids deps d :
  first_missing ids deps = Some d → d ∈ deps ∧ d ∉ ids.
Proof.
  induction deps as [|d' deps IH]; simpl; [done|].
  case_bool_decide as Hd.
  - intros H. destruct (IH H). split; [by right|done].
  - intros [= ->]. split; [by left|done].
Qed.

Lemma validate_rows_None ids rows :
  validate_rows ids rows = None ↔
  ∀ p d, p ∈ rows → d ∈ dependency p → d ∈ ids.
Proof.
  induction rows as [|p rows IH]; simpl.
  - split; [intros _ p d Hp; inversion Hp | done].
  - destruct (first_missing ids (dependency p)) as [d|] eqn:E.
    + split; [done|]. intros H. exfalso.
      apply first_missing_Some in E as [Hd Hn]. apply Hn, (H p); [by left|done].
    + rewrite IH. rewrite first_missing_None in E. split.
      * intros H q d Hq Hd. apply elem_of_cons in Hq as [->|Hq]; eauto.
      * intros H q d Hq Hd. apply (H q); [by right|done].
Qed.

Lemma validate_rows_Some ids rows pid d :
  validate_rows ids rows = Some (pid, d) →
  ∃ p, p ∈ rows ∧ id p = pid ∧ d ∈ dependency p ∧ d ∉ ids.
Proof.
  induction rows as [|p rows IH]; simpl; [done|].
  destruct (first_missing ids (dependency p)) as [d'|] eqn:E.
  - intros [= <- <-]. apply first_missing_Some in E as [Hd Hn].
    exists p. split; [by left|done].
  - intros H. destruct (IH H) as (q & Hq & Hrest).
    exists q. split; [by right|done].
Qed.

Lemma validate_dependencies_None df :
  validate_dependencies df = None ↔ valid_dependencies df.
Proof. apply validate_rows_None. Qed.

End validation.

(** ** Dependency-respecting mode: the loop invariant *)

Section mode_A.

Context (df : list process) (throughput_target : Q).

Lemma dependencies_allocated_true A deps :
  dependencies_allocated A deps = true ↔ ∀ d, d ∈ deps → d ∈ A.
Proof.
  unfold dependencies_allocated. induction deps as [|d deps IH]; simpl.
  - split; [intros _ d Hd; inversion Hd | done].
  - rewrite andb_true_iff, IH, bool_decide_eq_true. split.
    + intros [Hd H] x Hx. apply elem_of_cons in Hx as [->|Hx]; auto.
    + intros H. split; [apply H; by left | intros x Hx; apply H; by right].
Qed.

Lemma find_seed_Some A rows p :
  find_seed A rows = Some p →
  p ∈ rows ∧ (id p ∉ A) ∧ (∀ d, d ∈ dependency p → d ∈ A).
Proof.
  induction rows as [|q rows IH]; simpl; [done|].
  case_bool_decide as Hq.
  - intros H. destruct (IH H) as (? & ? & ?). split; [by right|done].
  - destruct (dependencies_allocated A (dependency q)) eqn:E.
    + intros [= ->]. rewrite dependencies_allocated_true in E.
      split; [by left|done].
    + intros H. destruct (IH H) as (? & ? & ?). split; [by right|done].
Qed.

Lemma calculate_station_time_snoc cur p :
  calculate_station_time (cur ++ [p])
  = calculate_station_time cur + expectedTimeInMin p.
Proof. unfold calculate_station_time. by rewrite fold_left_app. Qed.

Lemma fill_inv_init A0 seed :
  seed ∈ df → id seed ∉ A0 → (∀ d, d ∈ dependency seed → d ∈ A0) →
  fill_inv df throughput_target A0 seed ([seed], {[id seed]} ∪ A0).
Proof.
  intros Hin Hfresh Hdeps. split; simpl.
  - by exists [].
  - set_solver.
  - apply NoDup_singleton.
  - intros p ->%list_elem_of_singleton. done.
  - intros p ->%list_elem_of_singleton. done.
  - intros p d ->%list_elem_of_singleton Hd. set_solver.
  - by left.
Qed.

Lemma fill_step_inv A0 seed machine_type acc next :
  next ∈ df → fill_inv df throughput_target A0 seed acc →
  fill_inv df throughput_target A0 seed (fill_step machine_type throughput_target acc next).
Proof.
  intros Hnext Hinv. destruct acc as [cur A]. unfold fill_step.
  case_bool_decide as Hin; [done|].
  destruct (_ && _ && _) eqn:E; [|done].
  apply andb_true_iff in E as [E Htime].
  apply andb_true_iff in E as [_ Hdeps].
  rewrite dependencies_allocated_true in Hdeps.
  apply Qle_bool_iff in Htime.
  destruct Hinv as [[rest Hhead] Halloc Hnodup Hfresh Hrows Hd Ht].
  simpl in *. subst A. split; simpl.
  - exists (rest ++ [next]). by rewrite Hhead.
  - rewrite fmap_app, list_to_set_app_L. set_solver.
  - rewrite fmap_app. apply NoDup_app. split; [done|]. split.
    + intros x Hx ->%list_elem_of_singleton. set_solver.
    + apply NoDup_singleton.
  - intros p [Hp| ->%list_elem_of_singleton]%elem_of_app; [by apply Hfresh|].
    set_solver.
  - intros p [Hp| ->%list_elem_of_singleton]%elem_of_app; [by apply Hrows|done].
  - intros p d [Hp| ->%list_elem_of_singleton]%elem_of_app Hdep.
    + specialize (Hd p d Hp Hdep). set_solver.
    + specialize (Hdeps d Hdep). set_solver.
  - right. by rewrite calculate_station_time_snoc.
Qed.

Lemma fill_station_inv A0 seed machine_type acc :
  fill_inv df throughput_target A0 seed acc →
  fill_inv df throughput_target A0 seed (fill_station df machine_type throughput_target acc).
Proof.
  unfold fill_station.
  assert (∀ rows, (∀ p, p ∈ rows → p ∈ df) → ∀ a, fill_inv df throughput_target A0 seed a →
    fill_inv df throughput_target A0 seed
      (fold_left (fill_step machine_type throughput_target) rows a)) as H.
  { induction rows as [|q rows IH]; simpl; [done|]. intros Hsub a Ha.
    apply IH; [intros p Hp; apply Hsub; by right|].
    apply fill_step_inv; [apply Hsub; by left|done]. }
  by apply H.
Qed.

(** The effect of one run of the loop body. *)
Lemma open_station_Some st st' :
  open_station df throughput_target st = Some st' →
  ∃ seed cur,
    fill_inv df throughput_target (st_allocated st) seed (cur, st_allocated st') ∧
    st_stations st'
    = st_stations st
      ++ [close_station_A (st_station_id st) throughput_target cur] ∧
    st_station_id st' = S (st_station_id st).
Proof.
  unfold open_station.
  destruct (find_seed (st_allocated st) df) as [p|] eqn:Hseed; [|done].
  apply find_seed_Some in Hseed as (Hin & Hfresh & Hdeps).
  pose proof (fill_station_inv (st_allocated st) p (machineType p) _
                (fill_inv_init _ p Hin Hfresh Hdeps)) as Hinv.
  destruct (fill_station _ _ _ _) as [cur A].
  intros [= <-]. simpl. by exists p, cur.
Qed.

Lemma fill_inv_grows A0 seed cur A :
  fill_inv df throughput_target A0 seed (cur, A) →
  A0 ⊂ A ∧ id seed ∈ A ∧ (id seed ∉ A0) ∧ seed ∈ df.
Proof.
  intros [[rest Hhead] Halloc _ Hfresh Hrows _ _]. simpl in *. subst cur A.
  assert (id seed ∉ A0) by (apply Hfresh; by left).
  split; [|split; [|split]];
    [set_solver|set_solver|done|apply Hrows; by left].
Qed.

Lemma open_station_grows st st' :
  open_station df throughput_target st = Some st' →
  st_allocated st ⊂ st_allocated st'.
Proof.
  intros (seed & cur & Hinv & _)%open_station_Some.
  by apply fill_inv_grows in Hinv as [? _].
Qed.

(** Enough fuel: the loop returns. *)
Lemma while_loop_total fuel st :
  (length df ≤ fuel + size (st_allocated st))%nat →
  ∃ st', while_loop fuel df throughput_target st = Some st'.
Proof.
  revert st. induction fuel as [|fuel IH]; intros st Hfuel; simpl.
  - destruct (Nat.ltb_spec (size (st_allocated st)) (length df));
      [lia|by eexists].
  - destruct (Nat.ltb_spec (size (st_allocated st)) (length df));
      [|by eexists].
    destruct (open_station df throughput_target st) as [st'|] eqn:E;
      [|by eexists].
    apply IH. apply open_station_grows, subset_size in E. lia.
Qed.

(** More fuel does not change the result. *)
Lemma while_loop_mono fuel fuel' st st' :
  (fuel ≤ fuel')%nat →
  while_loop fuel df throughput_target st = Some st' →
  while_loop fuel' df throughput_target st = Some st'.
Proof.
  revert fuel' st. induction fuel as [|fuel IH]; intros fuel' st Hle; simpl.
  - destruct (Nat.ltb_spec (size (st_allocated st)) (length df)) as [Hlt|Hge];
      [done|].
    intros <-. destruct fuel'; simpl;
      by destruct (Nat.ltb_spec (size (st_allocated st)) (length df));
        [lia|].
  - destruct fuel' as [|fuel']; [lia|]. simpl.
    destruct (size (st_allocated st) <? length df)%nat; [|done].
    destruct (open_station df throughput_target st); [|done].
    apply IH. lia.
Qed.

Lemma open_station_inv rows st st' :
  loop_inv df throughput_target rows st →
  open_station df throughput_target st = Some st' →
  ∃ r, loop_inv df throughput_target (rows ++ [r]) st'.
Proof.
  intros (Hst & Hid & Halloc & Hpl) (seed & cur & Hfill & Hst' & Hid')%open_station_Some.
  destruct Hfill as [[rest Hhead] Ha Hnd Hfresh Hrows Hdeps Htime].
  destruct Hpl as [Pnd Prows Pne Pdeps Ptime]. simpl in *.
  exists cur. split; [|split; [|split; [|split]]].
  - rewrite Hst', Hst, Hid. unfold stations_of_rows_A.
    rewrite imap_app. simpl. by rewrite Nat.add_0_r.
  - rewrite Hid', Hid, length_app. simpl. lia.
  - rewrite Ha, Halloc, concat_app, fmap_app, list_to_set_app_L. simpl.
    rewrite app_nil_r. set_solver.
  - rewrite concat_app, fmap_app. simpl. rewrite app_nil_r.
    apply NoDup_app. split; [done|]. split; [|done].
    intros x Hx Hx'. apply list_elem_of_fmap in Hx' as (p & -> & Hp).
    apply (Hfresh p Hp). rewrite Halloc. by apply elem_of_list_to_set.
  - intros r p [Hr| ->%list_elem_of_singleton]%elem_of_app Hp; eauto.
  - intros r [Hr| ->%list_elem_of_singleton]%elem_of_app; [eauto|].
    by rewrite Hhead.
  - intros i r p d Hi Hp Hd.
    destruct (decide (i < length rows)%nat) as [Hlt|Hge].
    + rewrite lookup_app_l in Hi by done.
      destruct (Pdeps i r p d Hi Hp Hd) as (j & r' & Hj & Hr' & Hdr).
      exists j, r'. split; [done|]. split; [|done].
      by apply lookup_app_l_Some.
    + pose proof (lookup_lt_Some _ _ _ Hi) as Hlen.
      rewrite length_app in Hlen. simpl in Hlen.
      assert (i = length rows) as -> by lia.
      rewrite lookup_app_r, Nat.sub_diag in Hi by lia.
      injection Hi as <-.
      pose proof (Hdeps p d Hp Hd) as Hin. rewrite Ha, Halloc in Hin.
      apply elem_of_union in Hin as [Hin|Hin];
        apply elem_of_list_to_set in Hin.
      * exists (length rows), cur. split; [done|]. split; [|done].
        by rewrite lookup_app_r, Nat.sub_diag by lia.
      * apply list_elem_of_fmap in Hin as (q & -> & Hq).
        apply elem_of_concat in Hq as (r' & Hq & Hr').
        apply list_elem_of_lookup in Hr' as [j Hj].
        pose proof (lookup_lt_Some _ _ _ Hj).
        exists j, r'. split; [lia|]. split; [by apply lookup_app_l_Some|].
        by apply list_elem_of_fmap_2.
  - intros r [Hr| ->%list_elem_of_singleton]%elem_of_app; [eauto|].
    destruct Htime as [->|Hle]; [|by left].
    destruct (Qlt_le_dec throughput_target (calculate_station_time [seed]))
      as [Hlt|Hle]; [|by left].
    right. exists seed. split; [done|].
    unfold calculate_station_time in Hlt. simpl in Hlt.
    by rewrite Qplus_0_l in Hlt.
Qed.

Lemma while_loop_inv fuel rows st st' :
  loop_inv df throughput_target rows st →
  while_loop fuel df throughput_target st = Some st' →
  ∃ rows', loop_inv df throughput_target rows' st'.
Proof.
  revert rows st. induction fuel as [|fuel IH]; intros rows st Hinv; simpl.
  - destruct (size (st_allocated st) <? length df)%nat; [done|].
    intros [= <-]. by exists rows.
  - destruct (size (st_allocated st) <? length df)%nat;
      [|intros [= <-]; by exists rows].
    destruct (open_station df throughput_target st) as [st1|] eqn:E;
      [|intros [= <-]; by exists rows].
    destruct (open_station_inv rows st st1 Hinv E) as [r Hinv1].
    by apply (IH _ _ Hinv1).
Qed.

Lemma loop_inv_init :
  loop_inv df throughput_target []
    {| st_stations := []; st_station_id := 1; st_allocated := ∅ |}.
Proof.
  split; [done|]. split; [done|]. split; [done|].
  split; simpl; try (intros; exfalso; eapply not_elem_of_nil; eassumption).
  - apply NoDup_nil_2.
  - intros i r p d Hi. by rewrite lookup_nil in Hi.
Qed.

(** Whatever the fuel, a returned list of stations is built from a placement
    of rows. *)
Lemma allocate_with_fuel_A fuel sts :
  allocate_with_fuel fuel df true throughput_target = Some (Returned sts) →
  ∃ rows, sts = stations_of_rows_A throughput_target rows
          ∧ placement_A df throughput_target rows.
Proof.
  unfold allocate_with_fuel.
  destruct (validate_dependencies df) as [[pid d]|]; [done|].
  destruct (while_loop _ _ _ _) as [st|] eqn:E; [|done].
  intros [= <-].
  destruct (while_loop_inv _ _ _ _ loop_inv_init E)
    as (rows & Hst & _ & _ & Hpl).
  by exists rows.
Qed.

(** With valid dependencies the top-level function returns stations. *)
Lemma allocate_A_returns :
  valid_dependencies df →
  ∃ rows,
    allocate_processes_to_stations df true throughput_target
    = Some (Returned (stations_of_rows_A throughput_target rows))
    ∧ placement_A df throughput_target rows.
Proof.
  intros Hvalid%validate_dependencies_None.
  destruct (while_loop_total (length df)
              {| st_stations := []; st_station_id := 1; st_allocated := ∅ |})
    as [st Hst]; [lia|].
  assert (allocate_processes_to_stations df true throughput_target
          = Some (Returned (st_stations st))) as Hrun.
  { unfold allocate_processes_to_stations, allocate_with_fuel.
    by rewrite Hvalid, Hst. }
  destruct (allocate_with_fuel_A _ _ Hrun) as (rows & Heq & Hpl).
  exists rows. by rewrite Hrun, Heq.
Qed.

End mode_A.

(** ** Throughput-grouped mode *)

Section mode_B.

Context (throughput_target : Q).

Lemma insert_key_perm k ks : insert_key k ks ≡ₚ k :: ks.
Proof.
  induction ks as [|k' ks IH]; simpl; [done|].
  destruct (String.leb k k'); [done|]. by rewrite IH, Permutation_swap.
Qed.

Lemma sort_keys_perm ks : sort_keys ks ≡ₚ ks.
Proof.
  induction ks as [|k ks IH]; simpl; [done|].
  by rewrite insert_key_perm, IH.
Qed.

Lemma close_station_B_built k sp total :
  total == calculate_station_time sp →
  built_B throughput_target sp
    (close_station_B k throughput_target sp total).
Proof. done. Qed.

Lemma group_step_inv rows0 done gs p :
  group_inv throughput_target rows0 done gs →
  group_inv throughput_target rows0 (done ++ [p])
    (group_step throughput_target gs p).
Proof.
  intros (rows_g & Hst & Htot & Hdone). unfold group_step.
  destruct (Qle_bool _ _); simpl.
  - exists rows_g. split; [done|]. split; simpl.
    + by rewrite calculate_station_time_snoc, Htot.
    + by rewrite app_assoc, Hdone.
  - exists (rows_g ++ [gs_station_processes gs]). split; [|split]; simpl.
    + rewrite app_assoc. apply Forall2_app; [done|].
      constructor; [|done]. by apply close_station_B_built.
    + unfold calculate_station_time. simpl. by rewrite Qplus_0_l.
    + rewrite concat_app. simpl. by rewrite app_nil_r, Hdone.
Qed.

Lemma group_fold_inv rows0 group done gs :
  group_inv throughput_target rows0 done gs →
  group_inv throughput_target rows0 (done ++ group)
    (fold_left (group_step throughput_target) group gs).
Proof.
  revert done gs. induction group as [|p group IH]; intros done gs Hinv; simpl.
  - by rewrite app_nil_r.
  - replace (done ++ p :: group) with ((done ++ [p]) ++ group)
      by (by rewrite <- app_assoc).
    by apply IH, group_step_inv.
Qed.

(** One group: the stations it adds hold exactly the rows of the group, in
    order. *)
Lemma allocate_group_rows rows0 acc group :
  Forall2 (built_B throughput_target) rows0 acc.1 →
  ∃ rows_g,
    Forall2 (built_B throughput_target) (rows0 ++ rows_g)
      (allocate_group throughput_target acc group).1
    ∧ concat rows_g = group.
Proof.
  intros Hacc. unfold allocate_group.
  pose proof (group_fold_inv rows0 group []
    {| gs_stations := acc.1; gs_station_id := acc.2;
       gs_station_processes := []; gs_total_expected_time := 0 |}) as H.
  destruct H as (rows_g & Hst & Htot & Hdone).
  { exists []. rewrite app_nil_r. by split. }
  simpl in Hdone.
  destruct (gs_station_processes _) as [|q sp] eqn:E; simpl.
  - exists rows_g. split; [done|]. by rewrite app_nil_r in Hdone.
  - exists (rows_g ++ [q :: sp]). split.
    + rewrite app_assoc. apply Forall2_app; [done|].
      constructor; [|done]. by apply close_station_B_built.
    + rewrite concat_app. simpl. by rewrite app_nil_r.
Qed.

(** All groups: the stations hold the rows of the groups, group after group,
    and no station mixes two groups. *)
Lemma allocate_groups_fold groups rows0 acc :
  Forall2 (built_B throughput_target) rows0 acc.1 →
  ∃ rows,
    Forall2 (built_B throughput_target) (rows0 ++ rows)
      (fold_left (allocate_group throughput_target) groups acc).1
    ∧ concat rows = concat groups
    ∧ ∀ r, r ∈ rows → ∃ g, g ∈ groups ∧ ∀ p, p ∈ r → p ∈ g.
Proof.
  revert rows0 acc. induction groups as [|g groups IH]; intros rows0 acc Hacc.
  - exists []. rewrite app_nil_r. split; [done|]. split; [done|].
    by intros r ?%not_elem_of_nil.
  - simpl. destruct (allocate_group_rows rows0 acc g Hacc) as (rg & Hg & Hcat).
    destruct (IH _ _ Hg) as (rows & Hrows & Hcat' & Hhom).
    exists (rg ++ rows). split; [by rewrite app_assoc|]. split.
    + by rewrite concat_app, Hcat, Hcat'.
    + intros r [Hr|Hr]%elem_of_app.
      * exists g. split; [by left|]. intros p Hp. rewrite <- Hcat.
        apply elem_of_concat. by exists r.
      * destruct (Hhom r Hr) as (g' & Hg' & Hsub).
        exists g'. split; [by right|done].
Qed.

Lemma group_keys_NoDup df :
  NoDup (sort_keys (remove_dups (machineType <$> df))).
Proof. rewrite sort_keys_perm. apply NoDup_remove_dups. Qed.

Lemma elem_of_group_keys df k :
  k ∈ sort_keys (remove_dups (machineType <$> df)) ↔ k ∈ machineType <$> df.
Proof. by rewrite sort_keys_perm, elem_of_remove_dups. Qed.

Lemma snd_groupby df :
  snd <$> groupby_machineType df
  = (λ k, filter (λ p, machineType p = k) df)
    <$> sort_keys (remove_dups (machineType <$> df)).
Proof. unfold groupby_machineType. by rewrite <- list_fmap_compose. Qed.

Lemma filter_type_other (df : list process) k m :
  k ≠ m →
  filter (λ p, machineType p = m) (filter (λ p, machineType p = k) df) = [].
Proof.
  intros Hk. induction df as [|q l IH]; [done|].
  rewrite (filter_cons (λ p, machineType p = k)).
  destruct (decide (machineType q = k)) as [Hq|Hq]; [|done].
  by rewrite filter_cons_False by congruence.
Qed.

Lemma filter_type_same (df : list process) m :
  filter (λ p, machineType p = m) (filter (λ p, machineType p = m) df)
  = filter (λ p, machineType p = m) df.
Proof.
  induction df as [|q l IH]; [done|].
  rewrite (filter_cons _ q l).
  destruct (decide (machineType q = m)) as [Hq|Hq]; [|done].
  rewrite filter_cons_True by done. by f_equal.
Qed.

Lemma filter_type_absent (df : list process) m :
  m ∉ machineType <$> df → filter (λ p, machineType p = m) df = [].
Proof.
  intros Hm. induction df as [|q l IH]; [done|].
  rewrite fmap_cons in Hm. apply not_elem_of_cons in Hm as [Hne Hm].
  rewrite filter_cons_False by congruence. by apply IH.
Qed.

(** Among the groups of distinct keys, the rows of machine type [m] are those
    of the table, in table order. *)
Lemma filter_groups df m keys :
  NoDup keys → (m ∈ machineType <$> df → m ∈ keys) →
  filter (λ p, machineType p = m)
    (concat ((λ k, filter (λ p, machineType p = k) df) <$> keys))
  = filter (λ p, machineType p = m) df.
Proof.
  assert (∀ ks, m ∉ ks →
    filter (λ p, machineType p = m)
      (concat ((λ k, filter (λ p, machineType p = k) df) <$> ks)) = [])
    as Hnone.
  { induction ks as [|k ks IH]; [done|]. intros Hm.
    apply not_elem_of_cons in Hm as [Hne Hm]. csimpl.
    rewrite filter_app, filter_type_other, IH by done. done. }
  induction keys as [|k keys IH]; intros Hnd Hin.
  - csimpl. rewrite filter_nil. symmetry. apply filter_type_absent.
    intros Hm. by apply (not_elem_of_nil m), Hin.
  - apply NoDup_cons in Hnd as [Hk Hnd]. csimpl. rewrite filter_app.
    destruct (decide (k = m)) as [->|Hne].
    + by rewrite filter_type_same, Hnone, app_nil_r.
    + rewrite filter_type_other by done. simpl. apply IH; [done|].
      intros Hm. specialize (Hin Hm).
      apply elem_of_cons in Hin as [->|Hin]; done.
Qed.

(** Distinct keys and distinct ids: no id occurs twice among the groups. *)
Lemma NoDup_groups df keys :
  NoDup keys → NoDup (id <$> df) →
  NoDup (id <$> concat ((λ k, filter (λ p, machineType p = k) df) <$> keys)).
Proof.
  intros Hkeys Hids.
  induction keys as [|k keys IH]; csimpl; [apply NoDup_nil_2|].
  apply NoDup_cons in Hkeys as [Hk Hkeys]. rewrite fmap_app.
  apply NoDup_app. split; [|split; [|by apply IH]].
  - apply (sublist_NoDup _ (id <$> df)); [done|].
    apply fmap_sublist, sublist_filter.
  - intros x (p & -> & Hp)%list_elem_of_fmap (q & Heq & Hq)%list_elem_of_fmap.
    apply list_elem_of_filter in Hp as [Hpk Hp].
    apply elem_of_concat in Hq as (g & Hq & Hg).
    apply list_elem_of_fmap in Hg as (k' & -> & Hk').
    apply list_elem_of_filter in Hq as [Hqk Hq].
    assert (p = q) as -> by (by apply (NoDup_fmap_eq id df)).
    congruence.
Qed.

(** The stations of the throughput-grouped mode, by their rows. *)
Lemma allocate_groups_rows df :
  ∃ rows,
    Forall2 (built_B throughput_target) rows
      (allocate_groups df throughput_target)
    ∧ concat rows
      = concat ((λ k, filter (λ p, machineType p = k) df)
                <$> sort_keys (remove_dups (machineType <$> df)))
    ∧ ∀ r, r ∈ rows → ∃ m, ∀ p, p ∈ r → machineType p = m.
Proof.
  unfold allocate_groups.
  destruct (allocate_groups_fold (snd <$> groupby_machineType df) []
              ([], 1%nat)) as (rows & Hst & Hcat & Hhom); [constructor|].
  exists rows. split; [done|]. split; [by rewrite Hcat, snd_groupby|].
  intros r Hr. destruct (Hhom r Hr) as (g & Hg & Hsub).
  rewrite snd_groupby in Hg. apply list_elem_of_fmap in Hg as (k & -> & _).
  exists k. intros p Hp. by apply Hsub, list_elem_of_filter in Hp as [? _].
Qed.

End mode_B.

(** ** Stations and their rows *)

Section stations.

Context (throughput_target : Q).

Lemma elem_of_stations_of_rows_A s rows :
  s ∈ stations_of_rows_A throughput_target rows →
  ∃ i r, rows !! i = Some r ∧ s = close_station_A (S i) throughput_target r.
Proof.
  unfold stations_of_rows_A. intros (i & r & -> & Hr)%elem_of_lookup_imap.
  by exists i, r.
Qed.

Lemma processes_stations_of_rows_A rows :
  processes <$> stations_of_rows_A throughput_target rows
  = fmap (M:=list) summary <$> rows.
Proof.
  unfold stations_of_rows_A. rewrite fmap_imap.
  rewrite <- (imap_const (fmap (M:=list) summary) rows). by apply imap_ext.
Qed.

Lemma processes_built_B rows sts :
  Forall2 (built_B throughput_target) rows sts →
  processes <$> sts = fmap (M:=list) summary <$> rows.
Proof.
  induction 1 as [|r s rows sts (Hr & _) _ IH]; [done|].
  csimpl. by rewrite Hr, IH.
Qed.

Lemma ps_id_summary (l : list process) : ps_id <$> (summary <$> l) = id <$> l.
Proof. rewrite <- list_fmap_compose. by apply list_fmap_ext. Qed.

Lemma allocate_B_returns df :
  allocate_processes_to_stations df false throughput_target
  = Some (Returned (allocate_groups df throughput_target)).
Proof. done. Qed.

End stations.

(** ** The model on small tables *)

(** A dependency on an id that no row has: the error names both ids. *)
Example invalid_dependency_scenario :
  allocate_processes_to_stations
    [ {| id := "B"; name := "b"; expectedTimeInMin := 3 # 10;
         machineType := "M1"; dependency := ["Z"] |} ] true 1
  = Some (ValueError "Process 'B' has invalid dependency: 'Z'").
Proof. vm_compute. reflexivity. Qed.

(** Two rows of 0.6 on one machine type do not fit a target of 1 together. *)
Example grouped_split_scenario :
  (λ s, (station_id s, ps_id <$> processes s, machines_required s))
  <$> allocate_groups
        [ {| id := "P"; name := "p"; expectedTimeInMin := 6 # 10;
             machineType := "M1"; dependency := [] |};
          {| id := "Q"; name := "q"; expectedTimeInMin := 6 # 10;
             machineType := "M1"; dependency := [] |} ] 1
  = [ ("S1", ["P"], 1%Z); ("S2", ["Q"], 1%Z) ].
Proof. vm_compute. reflexivity. Qed.

(** Groups come in the order of their keys, not of the table. *)
Example grouped_key_order :
  (λ s, (station_id s, ps_id <$> processes s))
  <$> allocate_groups
        [ {| id := "P"; name := "p"; expectedTimeInMin := 2 # 10;
             machineType := "M2"; dependency := [] |};
          {| id := "Q"; name := "q"; expectedTimeInMin := 2 # 10;
             machineType := "M1"; dependency := [] |};
          {| id := "R"; name := "r"; expectedTimeInMin := 2 # 10;
             machineType := "M2"; dependency := [] |} ] 1
  = [ ("S1", ["Q"]); ("S2", ["P"; "R"]) ].
Proof. vm_compute. reflexivity. Qed.

(** Two rows that wait for each other: no seed is found and both are left
    out of the result. *)
Example cyclic_dependencies_dropped :
  allocate_processes_to_stations
    [ {| id := "A"; name := "a"; expectedTimeInMin := 2 # 10;
         machineType := "M1"; dependency := ["B"] |};
      {| id := "B"; name := "b"; expectedTimeInMin := 2 # 10;
         machineType := "M1"; dependency := ["A"] |} ] true 1
  = Some (Returned []).
Proof. vm_compute. reflexivity. Qed.

(** A seed longer than the target is kept alone in its station. *)
Example oversized_seed_alone :
  (λ s, (station_id s, ps_id <$> processes s))
  <$> match allocate_processes_to_stations
              [ {| id := "A"; name := "a"; expectedTimeInMin := 3 # 2;
                   machineType := "M1"; dependency := [] |};
                {| id := "B"; name := "b"; expectedTimeInMin := 2 # 10;
                   machineType := "M1"; dependency := [] |} ] true 1 with
      | Some (Returned sts) => sts
      | _ => []
      end
  = [ ("S1", ["A"]); ("S2", ["B"]) ].
Proof. vm_compute. reflexivity. Qed.

(** ** The claims of the specification *)

(** C1. On the three-process table, with target 1 and dependencies respected,
    the allocator returns exactly two stations: S1 with A then B and total
    time 0.7, and S2 with C and total time 0.5. *)
Theorem scenario_two_stations name_A name_B name_C :
  ∃ s1 s2,
    allocate_processes_to_stations
      (scenario_table name_A name_B name_C) true 1
    = Some (Returned [s1; s2])
    ∧ station_id s1 = "S1"
    ∧ processes s1 = [ {| ps_id := "A"; ps_name := name_A |};
                       {| ps_id := "B"; ps_name := name_B |} ]
    ∧ total_expected_time s1 == 7 # 10
    ∧ station_id s2 = "S2"
    ∧ processes s2 = [ {| ps_id := "C"; ps_name := name_C |} ]
    ∧ total_expected_time s2 == 5 # 10.
Proof.
  eexists _, _. split; [vm_compute; reflexivity|].
  repeat split.
Qed.

(** C2. With dependencies respected, the allocator raises the error exactly
    when some row declares a dependency that is the id of no row; the message
    is the text [Process '<id>' has invalid dependency: '<dep>'] with the id
    of such a row and the missing id written in it; the outcome is then the
    error and carries no station, and it is the same whatever the fuel, none
    included: the loop that builds the stations is not entered. Without
    dependencies respected, the error is never raised. *)
Theorem validation_error_iff df throughput_target :
  ((∃ msg, allocate_processes_to_stations df true throughput_target
           = Some (ValueError msg))
   ↔ ∃ p d, p ∈ df ∧ d ∈ dependency p ∧ d ∉ id <$> df)
  ∧ (∀ msg, allocate_processes_to_stations df true throughput_target
            = Some (ValueError msg) →
       ∃ p d, p ∈ df ∧ d ∈ dependency p ∧ (d ∉ id <$> df)
              ∧ msg = "Process '" +:+ id p
                      +:+ "' has invalid dependency: '" +:+ d +:+ "'")
  ∧ (∀ msg, allocate_processes_to_stations df true throughput_target
            = Some (ValueError msg) →
       ∀ fuel, allocate_with_fuel fuel df true throughput_target
               = Some (ValueError msg))
  ∧ (∀ msg, allocate_processes_to_stations df false throughput_target
            ≠ Some (ValueError msg)).
Proof.
  assert (∀ msg, allocate_processes_to_stations df true throughput_target
                 = Some (ValueError msg) →
          ∃ p d, p ∈ df ∧ d ∈ dependency p ∧ (d ∉ id <$> df)
                 ∧ msg = "Process '" +:+ id p
                         +:+ "' has invalid dependency: '" +:+ d +:+ "'")
    as Hmsg.
  { intros msg. unfold allocate_processes_to_stations, allocate_with_fuel.
    destruct (validate_dependencies df) as [[pid d]|] eqn:E.
    - intros [= <-].
      apply validate_rows_Some in E as (p & Hp & <- & Hd & Hn).
      by exists p, d.
    - by destruct (while_loop _ _ _ _). }
  split; [split|split; [done|split]].
  - intros [msg (p & d & Hp & Hd & Hn & _)%Hmsg]. by exists p, d.
  - intros (p & d & Hp & Hd & Hn).
    unfold allocate_processes_to_stations, allocate_with_fuel.
    destruct (validate_dependencies df) as [[pid d']|] eqn:E; [by eexists|].
    apply validate_dependencies_None in E. exfalso. by apply Hn, (E p).
  - intros msg. unfold allocate_processes_to_stations, allocate_with_fuel.
    destruct (validate_dependencies df) as [[pid d]|]; [done|].
    by destruct (while_loop _ _ _ _).
  - by intros msg.
Qed.

(** C3. With dependencies respected and valid, every station of the result
    has a total time within the target, unless it holds a single row whose
    own duration exceeds the target. (The target need not be positive.) *)
Theorem mode_A_time_within_target df throughput_target :
  valid_dependencies df →
  ∃ sts,
    allocate_processes_to_stations df true throughput_target
    = Some (Returned sts)
    ∧ ∀ s, s ∈ sts →
        total_expected_time s <= throughput_target
        ∨ ∃ p, p ∈ df ∧ processes s = [summary p]
               ∧ total_expected_time s == expectedTimeInMin p
               ∧ throughput_target < expectedTimeInMin p.
Proof.
  intros Hvalid.
  destruct (allocate_A_returns df throughput_target Hvalid)
    as (rows & Hrun & Hpl).
  eexists. split; [exact Hrun|].
  intros s (i & r & Hr & ->)%elem_of_stations_of_rows_A. simpl.
  assert (r ∈ rows) as Hin by (by eapply list_elem_of_lookup_2).
  destruct (pl_time _ _ _ Hpl r Hin) as [Hle|(p & -> & Hlt)]; [by left|].
  right. exists p. split; [|split; [done|split; [|done]]].
  - apply (pl_rows _ _ _ Hpl [p]); [done|by left].
  - unfold calculate_station_time. simpl. apply Qplus_0_l.
Qed.

Lemma mode_A_time_within_target_witness :
  ∃ sts,
    allocate_processes_to_stations (scenario_table "a" "b" "c") true 1
    = Some (Returned sts)
    ∧ ∀ s, s ∈ sts →
        total_expected_time s <= 1
        ∨ ∃ p, p ∈ scenario_table "a" "b" "c" ∧ processes s = [summary p]
               ∧ total_expected_time s == expectedTimeInMin p
               ∧ 1 < expectedTimeInMin p.
Proof.
  apply (mode_A_time_within_target (scenario_table "a" "b" "c") 1).
  apply validate_dependencies_None. vm_compute. reflexivity.
Defined.

(** C4. With dependencies respected and valid, every id in the dependency
    list of a placed row is placed in the same station or in an earlier one.
    The rows of station [i] are [rows !! i]; when the ids of the table are
    distinct, the same is stated on the ids stored in the stations. *)
Theorem mode_A_dependencies_placed_first df throughput_target :
  valid_dependencies df →
  ∃ sts rows,
    allocate_processes_to_stations df true throughput_target
    = Some (Returned sts)
    ∧ processes <$> sts = fmap (M:=list) summary <$> rows
    ∧ (∀ r p, r ∈ rows → p ∈ r → p ∈ df)
    ∧ (∀ i r p d,
         rows !! i = Some r → p ∈ r → d ∈ dependency p →
         ∃ j r', (j ≤ i)%nat ∧ rows !! j = Some r' ∧ d ∈ id <$> r')
    ∧ (NoDup (id <$> df) →
       ∀ i s p d,
         sts !! i = Some s → p ∈ df → id p ∈ ps_id <$> processes s →
         d ∈ dependency p →
         ∃ j s', (j ≤ i)%nat ∧ sts !! j = Some s'
                 ∧ d ∈ ps_id <$> processes s').
Proof.
  intros Hvalid.
  destruct (allocate_A_returns df throughput_target Hvalid)
    as (rows & Hrun & Hpl).
  exists (stations_of_rows_A throughput_target rows), rows.
  split; [done|]. split; [apply processes_stations_of_rows_A|].
  split; [apply Hpl|]. split; [apply Hpl|].
  intros Hids i s p d Hi Hp Hid Hd. unfold stations_of_rows_A in Hi.
  rewrite list_lookup_imap in Hi.
  destruct (rows !! i) as [r|] eqn:Hr; [|done]. injection Hi as <-.
  simpl in Hid. rewrite ps_id_summary in Hid.
  apply list_elem_of_fmap in Hid as (q & Heq & Hq).
  assert (r ∈ rows) as Hin by (by eapply list_elem_of_lookup_2).
  assert (p = q) as <-.
  { apply (NoDup_fmap_eq id df); [done|done| |done].
    by apply (pl_rows _ _ _ Hpl r). }
  destruct (pl_deps _ _ _ Hpl i r p d Hr Hq Hd) as (j & r' & Hj & Hr' & Hdr).
  exists j, (close_station_A (S j) throughput_target r').
  split; [done|]. split.
  - unfold stations_of_rows_A. by rewrite list_lookup_imap, Hr'.
  - simpl. by rewrite ps_id_summary.
Qed.

Lemma mode_A_dependencies_placed_first_witness :
  ∃ sts rows,
    allocate_processes_to_stations (scenario_table "a" "b" "c") true 1
    = Some (Returned sts)
    ∧ processes <$> sts = fmap (M:=list) summary <$> rows
    ∧ (∀ r p, r ∈ rows → p ∈ r → p ∈ scenario_table "a" "b" "c")
    ∧ (∀ i r p d,
         rows !! i = Some r → p ∈ r → d ∈ dependency p →
         ∃ j r', (j ≤ i)%nat ∧ rows !! j = Some r' ∧ d ∈ id <$> r')
    ∧ (NoDup (id <$> scenario_table "a" "b" "c") →
       ∀ i s p d,
         sts !! i = Some s → p ∈ scenario_table "a" "b" "c" →
         id p ∈ ps_id <$> processes s → d ∈ dependency p →
         ∃ j s', (j ≤ i)%nat ∧ sts !! j = Some s'
                 ∧ d ∈ ps_id <$> processes s').
Proof.
  apply (mode_A_dependencies_placed_first (scenario_table "a" "b" "c") 1).
  apply validate_dependencies_None. vm_compute. reflexivity.
Defined.

(** Dependency-respecting mode: no id is stored twice, whatever the table. *)
Lemma mode_A_no_duplicates df throughput_target fuel sts :
  allocate_with_fuel fuel df true throughput_target = Some (Returned sts) →
  NoDup (ps_id <$> concat (processes <$> sts)).
Proof.
  intros (rows & -> & Hpl)%allocate_with_fuel_A.
  rewrite processes_stations_of_rows_A, concat_fmap_fmap, ps_id_summary.
  apply Hpl.
Qed.

(** Throughput-grouped mode: no id is stored twice when the ids of the table
    are distinct. *)
Lemma mode_B_no_duplicates df throughput_target :
  NoDup (id <$> df) →
  NoDup (ps_id <$> concat (processes <$> allocate_groups df throughput_target)).
Proof.
  intros Hids.
  destruct (allocate_groups_rows throughput_target df)
    as (rows & Hst & Hcat & _).
  rewrite (processes_built_B _ _ _ Hst), concat_fmap_fmap, ps_id_summary, Hcat.
  apply NoDup_groups; [apply group_keys_NoDup|done].
Qed.

(** C5. For a table with distinct ids and valid dependencies, in both modes,
    the ids stored in the stations of the result, read station after station,
    are pairwise distinct: an id is in at most one station and at most once
    there. *)
Theorem no_duplicate_assignment df respect_dependencies throughput_target :
  NoDup (id <$> df) → valid_dependencies df →
  ∃ sts,
    allocate_processes_to_stations df respect_dependencies throughput_target
    = Some (Returned sts)
    ∧ NoDup (ps_id <$> concat (processes <$> sts)).
Proof.
  intros Hids Hvalid. destruct respect_dependencies.
  - destruct (allocate_A_returns df throughput_target Hvalid)
      as (rows & Hrun & _).
    eexists. split; [exact Hrun|].
    by apply (mode_A_no_duplicates df throughput_target (length df)).
  - eexists. split; [apply allocate_B_returns|].
    by apply mode_B_no_duplicates.
Qed.

Lemma no_duplicate_assignment_witness :
  ∃ sts,
    allocate_processes_to_stations (scenario_table "a" "b" "c") false 1
    = Some (Returned sts)
    ∧ NoDup (ps_id <$> concat (processes <$> sts)).
Proof.
  apply (no_duplicate_assignment (scenario_table "a" "b" "c") false 1).
  - apply (bool_decide_unpack _). vm_compute. exact I.
  - apply validate_dependencies_None. vm_compute. reflexivity.
Defined.

(** C6. Every station of the dependency-respecting mode has
    [machines_required = 1]; every station of the throughput-grouped mode has
    [machines_required] equal to the ceiling of its total time. *)
Theorem machines_required_policy df respect_dependencies throughput_target sts :
  allocate_processes_to_stations df respect_dependencies throughput_target
  = Some (Returned sts) →
  ∀ s, s ∈ sts →
    machines_required s
    = if respect_dependencies then 1%Z
      else Qceiling (total_expected_time s).
Proof.
  destruct respect_dependencies.
  - intros (rows & -> & _)%allocate_with_fuel_A s
      (i & r & _ & ->)%elem_of_stations_of_rows_A. done.
  - rewrite allocate_B_returns. intros [= <-] s Hs.
    destruct (allocate_groups_rows throughput_target df) as (rows & Hst & _).
    apply (Forall2_Forall_r _ (λ s, machines_required s
                                    = Qceiling (total_expected_time s)))
      in Hst; [by eapply Forall_forall in Hst|].
    apply Forall_forall. by intros r _ s' (_ & _ & _ & ?).
Qed.

Lemma machines_required_policy_witness :
  Forall (λ s, machines_required s = Qceiling (total_expected_time s))
    (allocate_groups (scenario_table "a" "b" "c") 1).
Proof.
  apply Forall_forall.
  apply (machines_required_policy (scenario_table "a" "b" "c") false 1).
  vm_compute. reflexivity.
Defined.

(** The running totals of the summarizer against the structural sums. *)
Lemma fold_left_Qplus {A} (f : A → Q) (l : list A) (a : Q) :
  fold_left (λ acc x, acc + f x) l a == a + sum_Q (f <$> l).
Proof.
  revert a. induction l as [|x l IH]; intros a; [simpl; by rewrite Qplus_0_r|].
  rewrite fmap_cons. change (sum_Q (f x :: (f <$> l)))
    with (f x + sum_Q (f <$> l)).
  simpl fold_left. by rewrite IH, Qplus_assoc.
Qed.

Lemma fold_left_Zplus {A} (f : A → Z) (l : list A) (a : Z) :
  fold_left (λ acc x, (acc + f x)%Z) l a = (a + sum_Z (f <$> l))%Z.
Proof.
  revert a. induction l as [|x l IH]; intros a; [simpl; lia|].
  rewrite fmap_cons. change (sum_Z (f x :: (f <$> l)))
    with (f x + sum_Z (f <$> l))%Z.
  simpl fold_left. rewrite IH. lia.
Qed.

(** In both modes a station records the target minus its total as waste. *)
Lemma waste_time_of_station df respect_dependencies throughput_target sts s :
  allocate_processes_to_stations df respect_dependencies throughput_target
  = Some (Returned sts) →
  s ∈ sts → waste_time s = throughput_target - total_expected_time s.
Proof.
  destruct respect_dependencies.
  - intros (rows & -> & _)%allocate_with_fuel_A
      (i & r & _ & ->)%elem_of_stations_of_rows_A. done.
  - rewrite allocate_B_returns. intros [= <-] Hs.
    destruct (allocate_groups_rows throughput_target df) as (rows & Hst & _).
    apply (Forall2_Forall_r _ (λ s, waste_time s
                                    = throughput_target - total_expected_time s))
      in Hst; [by eapply Forall_forall in Hst|].
    apply Forall_forall. by intros r _ s' (_ & _ & ? & _).
Qed.

(** C7. The summarizer counts the stations, adds up their [waste_time]
    fields and adds up their [machines_required] fields; on the output of the
    allocator the total waste is the sum of target minus total time over the
    stations; with no station the three totals are zero. *)
Theorem summary_totals_correct sts :
  total_stations (generate_summary_report sts) = length sts
  ∧ total_waste_time (generate_summary_report sts)
    == sum_Q (waste_time <$> sts)
  ∧ total_machines_required (generate_summary_report sts)
    = sum_Z (machines_required <$> sts)
  ∧ (∀ df respect_dependencies throughput_target,
       allocate_processes_to_stations df respect_dependencies
         throughput_target = Some (Returned sts) →
       total_waste_time (generate_summary_report sts)
       == sum_Q ((λ s, throughput_target - total_expected_time s) <$> sts))
  ∧ generate_summary_report []
    = {| total_stations := 0; total_waste_time := 0;
         total_machines_required := 0 |}.
Proof.
  assert (total_waste_time (generate_summary_report sts)
          == sum_Q (waste_time <$> sts)) as Hwaste.
  { simpl. by rewrite fold_left_Qplus, Qplus_0_l. }
  split; [done|]. split; [done|]. split; [|split; [|done]].
  - simpl. by rewrite fold_left_Zplus.
  - intros df resp target Hrun. rewrite Hwaste.
    replace ((λ s, target - total_expected_time s) <$> sts)
      with (waste_time <$> sts); [done|].
    apply list_fmap_ext. intros i s Hs.
    apply (waste_time_of_station df resp target sts); [done|].
    by eapply list_elem_of_lookup_2.
Qed.

Lemma summary_totals_correct_witness :
  total_waste_time
    (generate_summary_report (allocate_groups (scenario_table "a" "b" "c") 1))
  == sum_Q ((λ s, 1 - total_expected_time s)
            <$> allocate_groups (scenario_table "a" "b" "c") 1).
Proof.
  destruct (summary_totals_correct
              (allocate_groups (scenario_table "a" "b" "c") 1))
    as (_ & _ & _ & Hrun & _).
  apply (Hrun (scenario_table "a" "b" "c") false 1).
  vm_compute. reflexivity.
Defined.

(** Stations already in the list stay in it. *)
Lemma group_step_keeps throughput_target gs p s :
  s ∈ gs_stations gs → s ∈ gs_stations (group_step throughput_target gs p).
Proof.
  unfold group_step. destruct (Qle_bool _ _); simpl; [done|].
  intros Hs. apply elem_of_app. by left.
Qed.

Lemma group_fold_keeps throughput_target group gs s :
  s ∈ gs_stations gs →
  s ∈ gs_stations (fold_left (group_step throughput_target) group gs).
Proof.
  revert gs. induction group as [|p group IH]; intros gs Hs; simpl; [done|].
  by apply IH, group_step_keeps.
Qed.

Lemma allocate_group_keeps throughput_target acc group s :
  s ∈ acc.1 → s ∈ (allocate_group throughput_target acc group).1.
Proof.
  intros Hs. unfold allocate_group.
  pose proof (group_fold_keeps throughput_target group
    {| gs_stations := acc.1; gs_station_id := acc.2;
       gs_station_processes := []; gs_total_expected_time := 0 |} s Hs) as H.
  destruct (gs_station_processes _); simpl; [done|].
  apply elem_of_app. by left.
Qed.

Lemma allocate_groups_keeps throughput_target groups acc s :
  s ∈ acc.1 →
  s ∈ (fold_left (allocate_group throughput_target) groups acc).1.
Proof.
  revert acc. induction groups as [|g groups IH]; intros acc Hs; simpl;
    [done|].
  by apply IH, allocate_group_keeps.
Qed.

(** A group whose first row exceeds the target opens with an empty station. *)
Lemma allocate_group_empty_station throughput_target acc p group :
  throughput_target < expectedTimeInMin p →
  close_station_B acc.2 throughput_target [] 0
  ∈ (allocate_group throughput_target acc (p :: group)).1.
Proof.
  intros Hlt. unfold allocate_group. simpl fold_left.
  set (gs0 := {| gs_stations := acc.1; gs_station_id := acc.2;
                 gs_station_processes := []; gs_total_expected_time := 0 |}).
  assert (close_station_B acc.2 throughput_target [] 0
          ∈ gs_stations (group_step throughput_target gs0 p)) as H0.
  { unfold group_step. simpl.
    destruct (Qle_bool (0 + expectedTimeInMin p) throughput_target) eqn:E.
    - apply Qle_bool_iff in E. rewrite Qplus_0_l in E.
      exfalso. by apply (Qlt_not_le _ _ Hlt).
    - simpl. apply elem_of_app. right. by left. }
  pose proof (group_fold_keeps throughput_target group _ _ H0) as H.
  destruct (gs_station_processes _); simpl; [done|].
  apply elem_of_app. by left.
Qed.

(** C8. In the throughput-grouped mode the rows of one station share one
    machine type, and the rows of each machine type, read through the result
    station after station, are those of the table in table order. The rows
    of the stations are [rows]; when the ids of the table are distinct, the
    first part is also stated on the ids stored in the stations. *)
Theorem mode_B_grouping df throughput_target :
  ∃ sts rows,
    allocate_processes_to_stations df false throughput_target
    = Some (Returned sts)
    ∧ processes <$> sts = fmap (M:=list) summary <$> rows
    ∧ (∀ r p, r ∈ rows → p ∈ r → p ∈ df)
    ∧ (∀ r p q, r ∈ rows → p ∈ r → q ∈ r → machineType p = machineType q)
    ∧ (∀ m, filter (λ p, machineType p = m) (concat rows)
            = filter (λ p, machineType p = m) df)
    ∧ (NoDup (id <$> df) →
       ∀ s p q,
         s ∈ sts → p ∈ df → q ∈ df →
         id p ∈ ps_id <$> processes s → id q ∈ ps_id <$> processes s →
         machineType p = machineType q).
Proof.
  destruct (allocate_groups_rows throughput_target df)
    as (rows & Hst & Hcat & Hhom).
  assert (∀ r p, r ∈ rows → p ∈ r → p ∈ df) as Hsub.
  { intros r p Hr Hp.
    assert (p ∈ concat rows) as Hin by (apply elem_of_concat; by exists r).
    rewrite Hcat in Hin. apply elem_of_concat in Hin as (g & Hg & Hgs).
    apply list_elem_of_fmap in Hgs as (k & -> & _).
    by apply list_elem_of_filter in Hg as [_ ?]. }
  assert (∀ r p q, r ∈ rows → p ∈ r → q ∈ r → machineType p = machineType q)
    as Hsame.
  { intros r p q Hr Hp Hq. destruct (Hhom r Hr) as [m Hm].
    by rewrite (Hm p Hp), (Hm q Hq). }
  exists (allocate_groups df throughput_target), rows.
  split; [done|]. split; [by apply (processes_built_B throughput_target)|].
  split; [done|]. split; [done|]. split.
  - intros m. rewrite Hcat. apply filter_groups; [apply group_keys_NoDup|].
    apply elem_of_group_keys.
  - intros Hids s p q Hs Hp Hq Hps Hqs.
    apply list_elem_of_lookup in Hs as [i Hi].
    destruct (Forall2_lookup_r _ _ _ _ _ Hst Hi) as (r & Hr & Hpr & _).
    apply list_elem_of_lookup_2 in Hr.
    rewrite Hpr, ps_id_summary in Hps, Hqs.
    apply list_elem_of_fmap in Hps as (p' & Hp' & Hpin).
    apply list_elem_of_fmap in Hqs as (q' & Hq' & Hqin).
    assert (p = p') as <- by (apply (NoDup_fmap_eq id df); eauto).
    assert (q = q') as <- by (apply (NoDup_fmap_eq id df); eauto).
    by apply (Hsame r).
Qed.

(** C9. In the throughput-grouped mode, when the first row of a machine-type
    group lasts longer than the target, the result has a station with no
    process, total time 0, waste equal to the target and no machine. *)
Theorem mode_B_empty_station df throughput_target before p after :
  df = before ++ p :: after →
  (∀ q, q ∈ before → machineType q ≠ machineType p) →
  throughput_target < expectedTimeInMin p →
  ∃ sts s,
    allocate_processes_to_stations df false throughput_target
    = Some (Returned sts)
    ∧ s ∈ sts
    ∧ processes s = []
    ∧ total_expected_time s = 0
    ∧ waste_time s == throughput_target
    ∧ machines_required s = 0%Z.
Proof.
  intros Hdf Hfirst Hlt.
  assert (machineType p ∈ sort_keys (remove_dups (machineType <$> df)))
    as Hkey.
  { apply elem_of_group_keys, list_elem_of_fmap_2. rewrite Hdf.
    apply elem_of_app. right. by left. }
  apply list_elem_of_split in Hkey as (ks1 & ks2 & Hkeys).
  assert (filter (λ q, machineType q = machineType p) df
          = p :: filter (λ q, machineType q = machineType p) after) as Hgroup.
  { rewrite Hdf, filter_app, filter_cons_True by done.
    replace (filter (λ q, machineType q = machineType p) before) with
      (@nil process); [done|].
    symmetry. clear Hdf. induction before as [|q l IH]; [done|].
    rewrite filter_cons_False by (apply Hfirst; by left).
    apply IH. intros x Hx. apply Hfirst. by right. }
  exists (allocate_groups df throughput_target).
  unfold allocate_groups. rewrite snd_groupby, Hkeys, fmap_app, fmap_cons.
  rewrite fold_left_app. simpl fold_left. rewrite Hgroup.
  match goal with
  | |- context [allocate_group _ ?acc (p :: ?g)] =>
      exists (close_station_B acc.2 throughput_target [] 0);
      pose proof (allocate_group_empty_station throughput_target acc p g Hlt)
        as Hin
  end.
  split; [|split; [by apply allocate_groups_keeps|]].
  - unfold allocate_processes_to_stations, allocate_with_fuel, allocate_groups.
    rewrite snd_groupby, Hkeys, fmap_app, fmap_cons, fold_left_app.
    simpl fold_left. by rewrite Hgroup.
  - simpl. split; [done|]. split; [done|]. split; [|done].
    unfold Qminus. by rewrite Qplus_0_r.
Qed.

Lemma mode_B_empty_station_witness :
  ∃ sts s,
    allocate_processes_to_stations
      [ {| id := "A"; name := "a"; expectedTimeInMin := 3 # 2;
           machineType := "M1"; dependency := [] |} ] false 1
    = Some (Returned sts)
    ∧ s ∈ sts
    ∧ processes s = []
    ∧ total_expected_time s = 0
    ∧ waste_time s == 1
    ∧ machines_required s = 0%Z.
Proof.
  apply (mode_B_empty_station _ 1 []
           {| id := "A"; name := "a"; expectedTimeInMin := 3 # 2;
              machineType := "M1"; dependency := [] |} []).
  - reflexivity.
  - intros q Hq. by apply not_elem_of_nil in Hq.
  - reflexivity.
Defined.

(** C10. The allocator returns on every table in both modes: the fuel it is
    given is never used up, and more fuel gives the same outcome. In the
    dependency-respecting mode an iteration of the loop either allocates an
    id of the table that was not allocated, so that the set of unallocated
    ids shrinks strictly, or finds no seed and leaves the loop. *)
Theorem allocator_terminates df respect_dependencies throughput_target :
  (∃ r, allocate_processes_to_stations df respect_dependencies
          throughput_target = Some r)
  ∧ (∀ fuel, (length df ≤ fuel)%nat →
       allocate_with_fuel fuel df respect_dependencies throughput_target
       = allocate_processes_to_stations df respect_dependencies
           throughput_target)
  ∧ (∀ st fuel,
       (size (st_allocated st) < length df)%nat →
       match open_station df throughput_target st with
       | Some st' =>
           st_allocated st ⊂ st_allocated st'
           ∧ list_to_set (id <$> df) ∖ st_allocated st'
             ⊂@{gset string} list_to_set (id <$> df) ∖ st_allocated st
           ∧ while_loop (S fuel) df throughput_target st
             = while_loop fuel df throughput_target st'
       | None => while_loop (S fuel) df throughput_target st = Some st
       end).
Proof.
  assert (∀ fuel, (length df ≤ fuel)%nat →
    allocate_with_fuel fuel df respect_dependencies throughput_target
    = allocate_processes_to_stations df respect_dependencies
        throughput_target
    ∧ ∃ r, allocate_processes_to_stations df respect_dependencies
             throughput_target = Some r) as Hfuel.
  { intros fuel Hle. unfold allocate_processes_to_stations, allocate_with_fuel.
    destruct respect_dependencies; [|by eauto].
    destruct (validate_dependencies df) as [[pid d]|]; [by eauto|].
    destruct (while_loop_total df throughput_target (length df)
                {| st_stations := []; st_station_id := 1; st_allocated := ∅ |})
      as [st Hst]; [lia|].
    rewrite (while_loop_mono df throughput_target _ fuel _ _ Hle Hst), Hst.
    by eauto. }
  split; [by apply (Hfuel (length df))|]. split; [by apply Hfuel|].
  intros st fuel Hlt. simpl.
  destruct (Nat.ltb_spec (size (st_allocated st)) (length df)); [|lia].
  destruct (open_station df throughput_target st) as [st'|] eqn:E; [|done].
  apply open_station_Some in E as (seed & cur & Hinv & _).
  apply fill_inv_grows in Hinv as (Hsub & Hin & Hfresh & Hseed).
  split; [done|]. split; [|done].
  assert (id seed ∈@{gset string} list_to_set (id <$> df)) as Hid
    by (by apply elem_of_list_to_set, list_elem_of_fmap_2).
  set_solver.
Qed.

(** ** Station labels *)

Section labels.

Lemma station_label_inj n m : station_label n = station_label m → n = m.
Proof.
  unfold station_label. intros H.
  injection H as H. apply DecimalNat.Unsigned.to_uint_inj.
  change (NilEmpty.string_of_uint (Nat.to_uint n)
          = NilEmpty.string_of_uint (Nat.to_uint m)) in H.
  apply (f_equal NilEmpty.uint_of_string) in H.
  rewrite !NilEmpty.usu in H. by injection H.
Qed.

Lemma NoDup_station_labels k n : NoDup (station_label <$> seq k n).
Proof.
  apply NoDup_fmap_2_strong; [|apply NoDup_seq].
  intros a b _ _. apply station_label_inj.
Qed.

Lemma station_ids_of_rows_A throughput_target rows :
  station_id <$> stations_of_rows_A throughput_target rows
  = station_label <$> seq 1 (length rows).
Proof.
  unfold stations_of_rows_A.
  assert (∀ k, station_id
               <$> imap (λ i r, close_station_A (k + i) throughput_target r)
                     rows
               = station_label <$> seq k (length rows)) as H.
  { induction rows as [|r rows IH]; intros k; [done|].
    rewrite imap_cons. csimpl. rewrite Nat.add_0_r. f_equal.
    rewrite <- (IH (S k)). f_equal. apply imap_ext. intros i x _. simpl.
    f_equal. lia. }
  exact (H 1%nat).
Qed.

Lemma numbered_snoc sts k s :
  numbered sts k → station_id s = station_label k → numbered (sts ++ [s]) (S k).
Proof.
  intros [Hids ->] Hs. split.
  - rewrite fmap_app, length_app, Hids. simpl length.
    rewrite Nat.add_1_r, seq_S, fmap_app. simpl. by rewrite Hs.
  - rewrite length_app. simpl. lia.
Qed.

Lemma group_fold_numbered throughput_target group gs :
  numbered (gs_stations gs) (gs_station_id gs) →
  numbered
    (gs_stations (fold_left (group_step throughput_target) group gs))
    (gs_station_id (fold_left (group_step throughput_target) group gs)).
Proof.
  revert gs. induction group as [|p group IH]; intros gs Hn; simpl; [done|].
  apply IH. unfold group_step. destruct (Qle_bool _ _); simpl; [done|].
  by apply numbered_snoc.
Qed.

Lemma allocate_group_numbered throughput_target acc group :
  numbered acc.1 acc.2 →
  numbered (allocate_group throughput_target acc group).1
    (allocate_group throughput_target acc group).2.
Proof.
  intros Hn. unfold allocate_group.
  pose proof (group_fold_numbered throughput_target group
    {| gs_stations := acc.1; gs_station_id := acc.2;
       gs_station_processes := []; gs_total_expected_time := 0 |} Hn) as H.
  destruct (gs_station_processes _); simpl; [done|].
  by apply numbered_snoc.
Qed.

Lemma allocate_groups_numbered throughput_target groups acc :
  numbered acc.1 acc.2 →
  numbered (fold_left (allocate_group throughput_target) groups acc).1
    (fold_left (allocate_group throughput_target) groups acc).2.
Proof.
  revert acc. induction groups as [|g groups IH]; intros acc Hn; simpl;
    [done|].
  by apply IH, allocate_group_numbered.
Qed.

End labels.

(** X1. In both modes the stations of the result are labelled S1, S2, ... in
    the order of the result, so no two stations share a label. *)
Theorem station_ids_sequential df respect_dependencies throughput_target sts :
  allocate_processes_to_stations df respect_dependencies throughput_target
  = Some (Returned sts) →
  station_id <$> sts = station_label <$> seq 1 (length sts)
  ∧ NoDup (station_id <$> sts).
Proof.
  intros Hrun.
  assert (station_id <$> sts = station_label <$> seq 1 (length sts)) as Hids.
  { destruct respect_dependencies.
    - apply allocate_with_fuel_A in Hrun as (rows & -> & _).
      unfold stations_of_rows_A at 2. rewrite length_imap.
      apply station_ids_of_rows_A.
    - rewrite allocate_B_returns in Hrun. injection Hrun as <-.
      unfold allocate_groups.
      by apply (allocate_groups_numbered throughput_target _ ([], 1%nat)). }
  split; [done|]. rewrite Hids. apply NoDup_station_labels.
Qed.

Lemma station_ids_sequential_witness :
  station_id <$> allocate_groups (scenario_table "a" "b" "c") 1
  = station_label
    <$> seq 1 (length (allocate_groups (scenario_table "a" "b" "c") 1))
  ∧ NoDup (station_id <$> allocate_groups (scenario_table "a" "b" "c") 1).
Proof.
  apply (station_ids_sequential (scenario_table "a" "b" "c") false 1).
  vm_compute. reflexivity.
Defined.

(** ** Dependency-respecting mode: what a station holds and what is left out *)

Section mode_A_more.

Context (df : list process) (throughput_target : Q).

Lemma open_station_unfold st st' :
  open_station df throughput_target st = Some st' →
  ∃ seed cur,
    find_seed (st_allocated st) df = Some seed
    ∧ fill_station df (machineType seed) throughput_target
        ([seed], {[id seed]} ∪ st_allocated st)
      = (cur, st_allocated st')
    ∧ st_stations st'
      = st_stations st
        ++ [close_station_A (st_station_id st) throughput_target cur].
Proof.
  unfold open_station.
  destruct (find_seed (st_allocated st) df) as [seed|]; [|done].
  destruct (fill_station _ _ _ _) as [cur A] eqn:E.
  intros [= <-]. simpl. by exists seed, cur.
Qed.

Lemma open_station_None st :
  open_station df throughput_target st = None ↔
  find_seed (st_allocated st) df = None.
Proof.
  unfold open_station.
  destruct (find_seed (st_allocated st) df) as [seed|]; [|done].
  by destruct (fill_station _ _ _ _).
Qed.

(** Only rows of the seed's machine type join a station. *)
Lemma fill_rows_types machine_type seed rows acc :
  (∀ p, p ∈ acc.1 → p = seed ∨ machineType p = machine_type) →
  ∀ p, p ∈ (fold_left (fill_step machine_type throughput_target) rows acc).1 →
       p = seed ∨ machineType p = machine_type.
Proof.
  revert acc. induction rows as [|q rows IH]; intros acc Hacc; [done|].
  simpl. apply IH. destruct acc as [cur A]. unfold fill_step.
  case_bool_decide; [done|].
  destruct (_ && _ && _) eqn:E; [|done].
  apply andb_true_iff in E as [E _]. apply andb_true_iff in E as [E _].
  apply String.eqb_eq in E.
  intros p [Hp| ->%list_elem_of_singleton]%elem_of_app; [by apply Hacc|].
  by right.
Qed.

Lemma open_station_one_type st st' :
  open_station df throughput_target st = Some st' →
  ∃ s, st_stations st' = st_stations st ++ [s]
       ∧ one_type_station df throughput_target s.
Proof.
  intros (seed & cur & Hseed & Hfill & Hst)%open_station_unfold.
  eexists. split; [exact Hst|].
  apply find_seed_Some in Hseed as (Hin & Hfresh & Hdeps).
  pose proof (fill_station_inv df throughput_target (st_allocated st) seed
                (machineType seed) _
                (fill_inv_init df throughput_target _ seed Hin Hfresh Hdeps))
    as Hinv.
  pose proof (fill_rows_types (machineType seed) seed df
                ([seed], {[id seed]} ∪ st_allocated st)) as Htypes.
  unfold fill_station in Hfill, Hinv. rewrite Hfill in Hinv, Htypes.
  destruct Hinv as [[rest Hhead] _ _ _ Hrows _ _]. simpl in *. subst cur.
  exists (st_station_id st), seed, rest. split; [done|]. split; [done|].
  intros p Hp. split; [apply Hrows; by right|].
  destruct (Htypes (λ q Hq, or_introl (proj1 (list_elem_of_singleton q seed) Hq))
              p) as [->|Hmt]; [by right|done|done].
Qed.

(** A property that every appended station has holds of all the stations. *)
Lemma while_loop_stations (P : station → Prop) fuel st st' :
  (∀ st1 st2, open_station df throughput_target st1 = Some st2 →
     ∃ s, st_stations st2 = st_stations st1 ++ [s] ∧ P s) →
  Forall P (st_stations st) →
  while_loop fuel df throughput_target st = Some st' →
  Forall P (st_stations st').
Proof.
  intros Hstep. revert st. induction fuel as [|fuel IH]; intros st HP; simpl.
  - destruct (size (st_allocated st) <? length df)%nat; [done|]. by intros [= <-].
  - destruct (size (st_allocated st) <? length df)%nat; [|by intros [= <-]].
    destruct (open_station df throughput_target st) as [st1|] eqn:E;
      [|by intros [= <-]].
    apply IH. destruct (Hstep _ _ E) as (s & -> & Hs).
    apply Forall_app. split; [done|]. by constructor.
Qed.

(** When the loop returns, the table is allocated or no seed is left. *)
Lemma while_loop_exit fuel st st' :
  while_loop fuel df throughput_target st = Some st' →
  (length df ≤ size (st_allocated st'))%nat
  ∨ find_seed (st_allocated st') df = None.
Proof.
  revert st. induction fuel as [|fuel IH]; intros st; simpl.
  - destruct (Nat.ltb_spec (size (st_allocated st)) (length df)); [done|].
    intros [= <-]. by left.
  - destruct (Nat.ltb_spec (size (st_allocated st)) (length df));
      [|intros [= <-]; by left].
    destruct (open_station df throughput_target st) as [st1|] eqn:E;
      [apply IH|].
    intros [= <-]. right. by apply open_station_None.
Qed.

Lemma dependencies_allocated_false A deps :
  dependencies_allocated A deps = false → ∃ d, d ∈ deps ∧ d ∉ A.
Proof.
  unfold dependencies_allocated. induction deps as [|d deps IH]; [done|].
  simpl. case_bool_decide as Hd; simpl.
  - intros (x & Hx & Hn)%IH. exists x. split; [by right|done].
  - intros _. exists d. split; [by left|done].
Qed.

Lemma find_seed_None A rows p :
  find_seed A rows = None → p ∈ rows → id p ∉ A →
  ∃ d, d ∈ dependency p ∧ d ∉ A.
Proof.
  induction rows as [|q rows IH]; simpl; [by intros _ ?%not_elem_of_nil|].
  case_bool_decide as Hq.
  - intros Hnone [->|Hp]%elem_of_cons Hfresh; [done|by apply IH].
  - destruct (dependencies_allocated A (dependency q)) eqn:E; [done|].
    intros Hnone [->|Hp]%elem_of_cons Hfresh; [|by apply IH].
    by apply dependencies_allocated_false.
Qed.

Lemma size_list_to_set_le (l : list string) :
  (size (list_to_set (C:=gset string) l) ≤ length l)%nat.
Proof.
  induction l as [|x l IH]; [done|]. csimpl.
  rewrite size_union_alt, size_singleton.
  assert (size (list_to_set (C:=gset string) l ∖ {[x]})
          ≤ size (list_to_set (C:=gset string) l))%nat
    by (apply subseteq_size; set_solver).
  lia.
Qed.

(** The rows left out by a run: each has a dependency that is left out. *)
Lemma allocate_A_leftover fuel sts p :
  allocate_with_fuel fuel df true throughput_target = Some (Returned sts) →
  p ∈ df → id p ∉ ps_id <$> concat (processes <$> sts) →
  ∃ d, d ∈ dependency p ∧ d ∉ ps_id <$> concat (processes <$> sts).
Proof.
  unfold allocate_with_fuel.
  destruct (validate_dependencies df) as [[pid d]|]; [done|].
  destruct (while_loop _ _ _ _) as [st|] eqn:E; [|done].
  intros [= <-] Hp.
  destruct (while_loop_inv df throughput_target _ _ _ _
              (loop_inv_init df throughput_target) E)
    as (rows & Hst & _ & Halloc & Hpl).
  rewrite Hst, processes_stations_of_rows_A, concat_fmap_fmap, ps_id_summary.
  assert (∀ x, x ∈ id <$> concat rows ↔ x ∈ st_allocated st) as Hmem
    by (intros x; by rewrite Halloc, elem_of_list_to_set).
  rewrite !Hmem. intros Hfresh.
  destruct (while_loop_exit _ _ _ E) as [Hfull|Hnone].
  - exfalso. apply Hfresh.
    assert (st_allocated st = list_to_set (id <$> df)) as ->.
    { apply set_subseteq_size_eq.
      - intros x (q & -> & Hq)%Hmem%list_elem_of_fmap.
        apply elem_of_concat in Hq as (r & Hq & Hr).
        apply elem_of_list_to_set, list_elem_of_fmap_2.
        by apply (pl_rows _ _ _ Hpl r).
      - pose proof (size_list_to_set_le (id <$> df)) as Hle.
        rewrite length_fmap in Hle. lia. }
    by apply elem_of_list_to_set, list_elem_of_fmap_2.
  - destruct (find_seed_None _ _ p Hnone Hp Hfresh) as (d & Hd & Hn).
    exists d. by rewrite Hmem.
Qed.

End mode_A_more.

(** X2. With dependencies respected, every station of the result is made of
    a first row of the table, its seed, followed by rows of the table that
    have the seed's machine type; in particular no station is empty, and the
    total is the sum over these rows. *)
Theorem mode_A_station_one_type df throughput_target sts :
  allocate_processes_to_stations df true throughput_target
  = Some (Returned sts) →
  Forall (λ s, ∃ seed rest,
            seed ∈ df
            ∧ (∀ p, p ∈ rest → p ∈ df ∧ machineType p = machineType seed)
            ∧ processes s = summary seed :: (summary <$> rest)
            ∧ total_expected_time s = calculate_station_time (seed :: rest))
    sts.
Proof.
  unfold allocate_processes_to_stations, allocate_with_fuel.
  destruct (validate_dependencies df) as [[pid d]|]; [done|].
  destruct (while_loop _ _ _ _) as [st|] eqn:E; [|done].
  intros [= <-].
  apply (while_loop_stations df throughput_target
           (one_type_station df throughput_target)) in E;
    [|apply open_station_one_type|constructor].
  eapply Forall_impl; [exact E|].
  intros s (k & seed & rest & -> & Hseed & Hrest). by exists seed, rest.
Qed.

Lemma mode_A_station_one_type_witness :
  ∃ sts,
    allocate_processes_to_stations (scenario_table "a" "b" "c") true 1
    = Some (Returned sts)
    ∧ Forall (λ s, ∃ seed rest,
                seed ∈ scenario_table "a" "b" "c"
                ∧ (∀ p, p ∈ rest →
                     p ∈ scenario_table "a" "b" "c"
                     ∧ machineType p = machineType seed)
                ∧ processes s = summary seed :: (summary <$> rest)
                ∧ total_expected_time s
                  = calculate_station_time (seed :: rest))
        sts.
Proof.
  eexists. split; [vm_compute; reflexivity|].
  apply (mode_A_station_one_type (scenario_table "a" "b" "c") 1).
  vm_compute. reflexivity.
Defined.

(** X3. With dependencies respected, a row of the table whose id is in no
    station of the result has a dependency whose id is in no station either:
    rows are left out only behind a dependency that is itself left out. *)
Theorem mode_A_left_out_behind_dependency df throughput_target sts p :
  allocate_processes_to_stations df true throughput_target
  = Some (Returned sts) →
  p ∈ df →
  id p ∉ ps_id <$> concat (processes <$> sts) →
  ∃ d, d ∈ dependency p ∧ d ∉ ps_id <$> concat (processes <$> sts).
Proof. apply allocate_A_leftover. Qed.

Lemma mode_A_left_out_behind_dependency_witness :
  ∃ d, d ∈ ["B"] ∧ d ∉ ps_id <$> concat (processes <$> @nil station).
Proof.
  apply (mode_A_left_out_behind_dependency
           [ {| id := "A"; name := "a"; expectedTimeInMin := 2 # 10;
                machineType := "M1"; dependency := ["B"] |};
             {| id := "B"; name := "b"; expectedTimeInMin := 2 # 10;
                machineType := "M1"; dependency := ["A"] |} ] 1 []
           {| id := "A"; name := "a"; expectedTimeInMin := 2 # 10;
              machineType := "M1"; dependency := ["B"] |}).
  - vm_compute. reflexivity.
  - apply list_elem_of_here.
  - apply not_elem_of_nil.
Defined.

(** X4. With dependencies respected and valid, when the dependencies are
    acyclic (some rank of the ids decreases along every dependency), no row
    is left out: every id of the table is in a station; and when the ids of
    the table are distinct, the ids of the result are those of the table, each
    once. *)
Theorem mode_A_acyclic_complete df throughput_target (rank : string → nat) :
  valid_dependencies df →
  (∀ p d, p ∈ df → d ∈ dependency p → (rank d < rank (id p))%nat) →
  ∃ sts,
    allocate_processes_to_stations df true throughput_target
    = Some (Returned sts)
    ∧ (∀ p, p ∈ df → id p ∈ ps_id <$> concat (processes <$> sts))
    ∧ (NoDup (id <$> df) →
       ps_id <$> concat (processes <$> sts) ≡ₚ id <$> df).
Proof.
  intros Hvalid Hrank.
  destruct (allocate_A_returns df throughput_target Hvalid)
    as (rows & Hrun & Hpl).
  eexists. split; [exact Hrun|].
  set (L := ps_id <$> concat
              (processes <$> stations_of_rows_A throughput_target rows)).
  assert (∀ n p, (rank (id p) < n)%nat → p ∈ df → id p ∈ L) as Hall.
  { induction n as [|n IH]; intros p Hn Hp; [lia|].
    destruct (decide (id p ∈ L)) as [|Hout]; [done|]. exfalso.
    destruct (allocate_A_leftover df throughput_target _ _ p Hrun Hp Hout)
      as (d & Hd & Hdout).
    destruct (proj1 (list_elem_of_fmap _ _ _) (Hvalid p d Hp Hd))
      as (q & -> & Hq).
    apply Hdout, IH; [|done]. specialize (Hrank p (id q) Hp Hd). lia. }
  split; [intros p Hp; apply (Hall (S (rank (id p)))); [lia|done]|].
  intros Hids. apply NoDup_Permutation; [|done|].
  - by apply (mode_A_no_duplicates df throughput_target (length df)).
  - intros x. split.
    + unfold L.
      rewrite processes_stations_of_rows_A, concat_fmap_fmap, ps_id_summary.
      intros (q & -> & Hq)%list_elem_of_fmap.
      apply elem_of_concat in Hq as (r & Hq & Hr).
      by apply list_elem_of_fmap_2, (pl_rows _ _ _ Hpl r).
    + intros (q & -> & Hq)%list_elem_of_fmap.
      apply (Hall (S (rank (id q)))); [lia|done].
Qed.

Lemma mode_A_acyclic_complete_witness :
  ∃ sts,
    allocate_processes_to_stations (scenario_table "a" "b" "c") true 1
    = Some (Returned sts)
    ∧ (∀ p, p ∈ scenario_table "a" "b" "c" →
         id p ∈ ps_id <$> concat (processes <$> sts))
    ∧ (NoDup (id <$> scenario_table "a" "b" "c") →
       ps_id <$> concat (processes <$> sts)
       ≡ₚ id <$> scenario_table "a" "b" "c").
Proof.
  apply (mode_A_acyclic_complete (scenario_table "a" "b" "c") 1
           (λ x, if String.eqb x "A" then 0%nat else 1%nat)).
  - apply validate_dependencies_None. vm_compute. reflexivity.
  - intros p d Hp Hd. unfold scenario_table in Hp.
    repeat (apply elem_of_cons in Hp as [->|Hp]); simpl in Hd;
      try (by apply not_elem_of_nil in Hd);
      try (by apply not_elem_of_nil in Hp);
      apply list_elem_of_singleton in Hd as ->; simpl; lia.
Defined.

(** X5. With dependencies respected, the result has at most as many stations
    as the table has rows. *)
Theorem mode_A_station_count df throughput_target sts :
  allocate_processes_to_stations df true throughput_target
  = Some (Returned sts) →
  (length sts ≤ length df)%nat.
Proof.
  intros (rows & -> & Hpl)%allocate_with_fuel_A.
  unfold stations_of_rows_A. rewrite length_imap.
  assert (length rows ≤ length (concat rows))%nat as Hrows.
  { pose proof (pl_nonempty _ _ _ Hpl) as Hne. clear Hpl.
    induction rows as [|r rows IH]; simpl; [done|].
    rewrite length_app.
    assert (r ≠ []) as Hr by (apply Hne; by left).
    assert (length rows ≤ length (concat rows))%nat
      by (apply IH; intros r' Hr'; apply Hne; by right).
    destruct r; [done|]. simpl. lia. }
  assert (length (id <$> concat rows) ≤ length (id <$> df))%nat as Hids.
  { apply submseteq_length, NoDup_submseteq; [apply Hpl|].
    intros x (q & -> & Hq)%list_elem_of_fmap.
    apply elem_of_concat in Hq as (r & Hq & Hr).
    by apply list_elem_of_fmap_2, (pl_rows _ _ _ Hpl r). }
  rewrite !length_fmap in Hids. lia.
Qed.

Lemma mode_A_station_count_witness :
  (length (stations_of_rows_A 1
             [ [ {| id := "A"; name := "a"; expectedTimeInMin := 4 # 10;
                    machineType := "M1"; dependency := [] |} ] ])
   ≤ 1)%nat.
Proof.
  apply (mode_A_station_count
           [ {| id := "A"; name := "a"; expectedTimeInMin := 4 # 10;
                machineType := "M1"; dependency := [] |} ] 1).
  vm_compute. reflexivity.
Defined.

(** ** Throughput-grouped mode: what a station holds *)

Section mode_B_stations.

Context (df : list process) (throughput_target : Q).

(** [J] is kept by the open station and [P] holds of a station when it is
    closed. *)
Context (P : station → Prop) (J : list process → Q → Prop).

Hypothesis J_init : J [] 0.

Hypothesis J_fit : ∀ sp tot p,
  p ∈ df → J sp tot → tot + expectedTimeInMin p <= throughput_target →
  J (sp ++ [p]) (tot + expectedTimeInMin p).

Hypothesis J_overflow : ∀ k sp tot p,
  p ∈ df → J sp tot → ¬ tot + expectedTimeInMin p <= throughput_target →
  P (close_station_B k throughput_target sp tot) ∧ J [p] (expectedTimeInMin p).

Hypothesis P_last : ∀ k sp tot,
  J sp tot → sp ≠ [] → P (close_station_B k throughput_target sp tot).

Lemma group_fold_stations group gs :
  (∀ p, p ∈ group → p ∈ df) →
  Forall P (gs_stations gs) →
  J (gs_station_processes gs) (gs_total_expected_time gs) →
  Forall P (gs_stations (fold_left (group_step throughput_target) group gs))
  ∧ J (gs_station_processes
         (fold_left (group_step throughput_target) group gs))
      (gs_total_expected_time
         (fold_left (group_step throughput_target) group gs)).
Proof.
  revert gs. induction group as [|p group IH]; intros gs Hsub HP HJ; [done|].
  simpl. assert (p ∈ df) as Hp by (apply Hsub; by left).
  apply IH; [intros q Hq; apply Hsub; by right| |]; unfold group_step;
    destruct (Qle_bool _ _) eqn:E; simpl; try done.
  - destruct (J_overflow (gs_station_id gs) _ _ p Hp HJ) as [Hs _].
    { rewrite <- Qle_bool_iff. by rewrite E. }
    apply Forall_app. split; [done|]. by constructor.
  - apply J_fit; [done|done|]. by apply Qle_bool_iff.
  - destruct (J_overflow (gs_station_id gs) _ _ p Hp HJ) as [_ HJ'];
      [|done].
    rewrite <- Qle_bool_iff. by rewrite E.
Qed.

Lemma allocate_group_stations acc group :
  (∀ p, p ∈ group → p ∈ df) →
  Forall P acc.1 → Forall P (allocate_group throughput_target acc group).1.
Proof.
  intros Hsub HP. unfold allocate_group.
  destruct (group_fold_stations group
    {| gs_stations := acc.1; gs_station_id := acc.2;
       gs_station_processes := []; gs_total_expected_time := 0 |} Hsub HP
    J_init) as [HP' HJ'].
  destruct (gs_station_processes _) as [|q sp] eqn:E; simpl; [done|].
  apply Forall_app. split; [done|]. constructor; [|done].
  by apply P_last.
Qed.

Lemma allocate_groups_stations : Forall P (allocate_groups df throughput_target).
Proof.
  unfold allocate_groups. rewrite snd_groupby.
  generalize (sort_keys (remove_dups (machineType <$> df))) as keys.
  assert (∀ keys acc, Forall P acc.1 →
    Forall P (fold_left (allocate_group throughput_target)
                ((λ k, filter (λ p, machineType p = k) df) <$> keys) acc).1)
    as H.
  { induction keys as [|k keys IH]; intros acc Hacc; [done|]. csimpl.
    apply IH, allocate_group_stations; [|done].
    by intros p [_ ?]%list_elem_of_filter. }
  intros keys. by apply H.
Qed.

End mode_B_stations.

(** The groups of distinct keys that cover the machine types of the table
    hold every row once. *)
Lemma groups_Permutation keys (df : list process) :
  NoDup keys → (∀ p, p ∈ df → machineType p ∈ keys) →
  concat ((λ k, filter (λ p, machineType p = k) df) <$> keys) ≡ₚ df.
Proof.
  revert df. induction keys as [|k keys IH]; intros df Hnd Hcover.
  - destruct df as [|p df]; [done|].
    by destruct (not_elem_of_nil _ (Hcover p ltac:(by left))).
  - apply NoDup_cons in Hnd as [Hk Hnd]. csimpl.
    etrans; [|apply (filter_app_complement (λ p, machineType p = k) df)].
    apply Permutation_app; [done|].
    assert ((λ k', filter (λ p, machineType p = k') df) <$> keys
            = (λ k', filter (λ p, machineType p = k')
                       (filter (λ p, ¬ machineType p = k) df)) <$> keys)
      as ->.
    { apply list_fmap_ext. intros i k' Hk'.
      apply list_elem_of_lookup_2 in Hk'.
      rewrite list_filter_filter. apply list_filter_iff.
      intros p. split; [|by intros [? _]].
      intros Hp. split; [done|]. congruence. }
    apply IH; [done|].
    intros p [Hne Hp]%list_elem_of_filter.
    specialize (Hcover p Hp). apply elem_of_cons in Hcover as [?|?]; done.
Qed.

(** X6. In the throughput-grouped mode every row of the table is placed,
    once: the ids stored in the result, read station after station, are the
    ids of the table up to order. *)
Theorem mode_B_places_every_row df throughput_target :
  ∃ sts,
    allocate_processes_to_stations df false throughput_target
    = Some (Returned sts)
    ∧ ps_id <$> concat (processes <$> sts) ≡ₚ id <$> df.
Proof.
  eexists. split; [apply allocate_B_returns|].
  destruct (allocate_groups_rows throughput_target df)
    as (rows & Hst & Hcat & _).
  rewrite (processes_built_B _ _ _ Hst), concat_fmap_fmap, ps_id_summary, Hcat.
  apply fmap_Permutation, groups_Permutation; [apply group_keys_NoDup|].
  intros p Hp. by apply elem_of_group_keys, list_elem_of_fmap_2.
Qed.

(** X7. In the throughput-grouped mode with a target that is not negative,
    every station has a total time within the target, unless it holds a
    single row whose own duration exceeds the target. *)
Theorem mode_B_time_within_target df throughput_target :
  0 <= throughput_target →
  ∃ sts,
    allocate_processes_to_stations df false throughput_target
    = Some (Returned sts)
    ∧ Forall (λ s,
        total_expected_time s <= throughput_target
        ∨ ∃ p, p ∈ df ∧ processes s = [summary p]
               ∧ total_expected_time s = expectedTimeInMin p
               ∧ throughput_target < expectedTimeInMin p) sts.
Proof.
  intros Hpos. eexists. split; [apply allocate_B_returns|].
  apply (allocate_groups_stations df throughput_target _
           (λ sp tot, (sp = [] ∧ tot = 0)
                      ∨ (∃ p, p ∈ df ∧ sp = [p] ∧ tot = expectedTimeInMin p)
                      ∨ tot <= throughput_target)).
  - by left.
  - intros sp tot p Hp _ Hfit. by right; right.
  - intros k sp tot p Hp HJ _. split; [|right; left; by exists p].
    destruct HJ as [[-> ->]|[(q & Hq & -> & ->)|Hle]]; simpl;
      [by left| |by left].
    destruct (Qlt_le_dec throughput_target (expectedTimeInMin q));
      [right; by exists q|by left].
  - intros k sp tot HJ _.
    destruct HJ as [[-> ->]|[(q & Hq & -> & ->)|Hle]]; simpl;
      [by left| |by left].
    destruct (Qlt_le_dec throughput_target (expectedTimeInMin q));
      [right; by exists q|by left].
Qed.

Lemma mode_B_time_within_target_witness :
  ∃ sts,
    allocate_processes_to_stations (scenario_table "a" "b" "c") false 1
    = Some (Returned sts)
    ∧ Forall (λ s,
        total_expected_time s <= 1
        ∨ ∃ p, p ∈ scenario_table "a" "b" "c" ∧ processes s = [summary p]
               ∧ total_expected_time s = expectedTimeInMin p
               ∧ 1 < expectedTimeInMin p) sts.
Proof.
  apply (mode_B_time_within_target (scenario_table "a" "b" "c") 1).
  vm_compute. discriminate.
Defined.

(** X8. In the throughput-grouped mode, when no row of the table lasts longer
    than the target, no station is empty and every station has a total time
    within the target. *)
Theorem mode_B_no_empty_station df throughput_target :
  (∀ p, p ∈ df → expectedTimeInMin p <= throughput_target) →
  ∃ sts,
    allocate_processes_to_stations df false throughput_target
    = Some (Returned sts)
    ∧ Forall (λ s, processes s ≠ []
                   ∧ total_expected_time s <= throughput_target) sts.
Proof.
  intros Hfit. eexists. split; [apply allocate_B_returns|].
  apply (allocate_groups_stations df throughput_target _
           (λ sp tot, (sp = [] ∧ tot = 0)
                      ∨ (sp ≠ [] ∧ tot <= throughput_target))).
  - by left.
  - intros sp tot p Hp _ Hle. right. split; [by destruct sp|done].
  - intros k sp tot p Hp HJ Hover.
    split; [|right; split; [done|by apply Hfit]].
    destruct HJ as [[-> ->]|[Hne Hle]]; simpl.
    + exfalso. apply Hover. rewrite Qplus_0_l. by apply Hfit.
    + split; [by destruct sp|done].
  - intros k sp tot [[-> ->]|[Hne Hle]] Hsp; [done|]. simpl.
    split; [by destruct sp|done].
Qed.

Lemma mode_B_no_empty_station_witness :
  ∃ sts,
    allocate_processes_to_stations (scenario_table "a" "b" "c") false 1
    = Some (Returned sts)
    ∧ Forall (λ s, processes s ≠ [] ∧ total_expected_time s <= 1) sts.
Proof.
  apply (mode_B_no_empty_station (scenario_table "a" "b" "c") 1).
  intros p Hp. unfold scenario_table in Hp.
  repeat (apply elem_of_cons in Hp as [->|Hp]);
    try (by apply not_elem_of_nil in Hp); vm_compute; discriminate.
Defined.

(** X10. With dependencies respected, the summary counts one machine per
    station: the total of the machines is the number of stations. *)
Theorem mode_A_one_machine_per_station df throughput_target sts :
  allocate_processes_to_stations df true throughput_target
  = Some (Returned sts) →
  total_machines_required (generate_summary_report sts)
  = Z.of_nat (total_stations (generate_summary_report sts)).
Proof.
  intros (rows & -> & _)%allocate_with_fuel_A. simpl.
  rewrite fold_left_Zplus. unfold stations_of_rows_A.
  rewrite fmap_imap, length_imap.
  change (imap (λ n, machines_required ∘ _) rows)
    with (imap (λ (_ : nat) (_ : list process), 1%Z) rows).
  generalize 0%nat. induction rows as [|r rows IH]; intros k; [done|].
  rewrite imap_cons. change (sum_Z (?x :: ?l)) with (x + sum_Z l)%Z.
  simpl length. specialize (IH k). unfold compose in *. lia.
Qed.

Lemma mode_A_one_machine_per_station_witness :
  total_machines_required
    (generate_summary_report
       (stations_of_rows_A 1
          [ [ {| id := "A"; name := "a"; expectedTimeInMin := 4 # 10;
                 machineType := "M1"; dependency := [] |} ] ]))
  = 1%Z.
Proof.
  apply (mode_A_one_machine_per_station
           [ {| id := "A"; name := "a"; expectedTimeInMin := 4 # 10;
                machineType := "M1"; dependency := [] |} ] 1).
  vm_compute. reflexivity.
Defined.

(** X12. [check_dependencies_met] answers yes for an id that is not a key of
    the dictionary, and a yes stays a yes when more processes are allocated;
    on the dependency list of a row it is the test the allocator applies. *)
Theorem check_dependencies_met_grows process_id
    (A A' : gset string) (process_dependencies : gmap string (list string)) :
  (process_dependencies !! process_id = None →
   check_dependencies_met process_id A process_dependencies = true)
  ∧ (A ⊆ A' →
     check_dependencies_met process_id A process_dependencies = true →
     check_dependencies_met process_id A' process_dependencies = true)
  ∧ (∀ p, process_dependencies !! process_id = Some (dependency p) →
          check_dependencies_met process_id A process_dependencies
          = dependencies_allocated A (dependency p)).
Proof.
  unfold check_dependencies_met. split; [by intros ->|]. split.
  - intros Hsub.
    change (dependencies_allocated A
              (default [] (process_dependencies !! process_id)) = true →
            dependencies_allocated A'
              (default [] (process_dependencies !! process_id)) = true).
    rewrite !dependencies_allocated_true. intros H d Hd. by apply Hsub, H.
  - by intros p ->.
Qed.

(** ** The chart *)

Section chart.

Context (info_map : gmap string process_info) (color_map : gmap string color).

Lemma draw_snoc i ps x acc :
  fold_left (draw_process info_map color_map i) (ps ++ [x]) acc
  = draw_process info_map color_map i
      (fold_left (draw_process info_map color_map i) ps acc) x.
Proof. by rewrite fold_left_app. Qed.

(** The bars of a row: one per process, each starting where the bars before
    it end. *)
Lemma draw_layout i ps :
  let d := fold_left (draw_process info_map color_map i) ps ([], 0) in
  length d.1 = length ps
  ∧ d.2 = fold_left Qplus (bar_width <$> d.1) 0
  ∧ Forall (λ b, bar_row b = i) d.1
  ∧ ∀ k b, d.1 !! k = Some b →
           bar_left b = fold_left Qplus (bar_width <$> take k d.1) 0.
Proof.
  induction ps as [|x ps IH] using rev_ind; simpl.
  - split; [done|]. split; [done|]. split; [done|]. by intros k b.
  - rewrite draw_snoc. destruct IH as (Hlen & Hsum & Hrow & Hleft).
    set (d := fold_left (draw_process info_map color_map i) ps ([], 0)) in *.
    simpl. split; [|split; [|split]].
    + rewrite !length_app. simpl. lia.
    + rewrite fmap_app, fold_left_app. simpl. by rewrite <- Hsum.
    + apply Forall_app. split; [done|]. by constructor.
    + intros k b Hk. destruct (decide (k < length d.1)%nat) as [Hlt|Hge].
      * rewrite lookup_app_l in Hk by done.
        rewrite take_app_le by lia. by apply Hleft.
      * pose proof (lookup_lt_Some _ _ _ Hk) as Hk'.
        rewrite length_app in Hk'. simpl in Hk'.
        assert (k = length d.1) as -> by lia.
        rewrite lookup_app_r, Nat.sub_diag in Hk by lia.
        injection Hk as <-. simpl. by rewrite take_app_length.
Qed.

End chart.

Section chart_order.

Context (info_map : gmap string process_info) (color_map : gmap string color).

(** [start_time] is where the last bar ends, and each bar starts where the
    bar before it ends. *)
Lemma draw_adjacent i ps :
  let d := fold_left (draw_process info_map color_map i) ps ([], 0) in
  match last d.1 with
  | Some b => d.2 = bar_left b + bar_width b
  | None => d.2 = 0
  end
  ∧ (∀ b, d.1 !! 0%nat = Some b → bar_left b = 0)
  ∧ ∀ k b b', d.1 !! k = Some b → d.1 !! S k = Some b' →
              bar_left b' = bar_left b + bar_width b.
Proof.
  induction ps as [|x ps IH] using rev_ind; simpl.
  - split; [done|]. split; [by intros b|by intros k b b'].
  - rewrite draw_snoc. destruct IH as (Hlast & Hfirst & Hadj).
    set (d := fold_left (draw_process info_map color_map i) ps ([], 0)) in *.
    simpl. rewrite last_snoc. split; [done|]. split.
    + intros b Hb. destruct d.1 as [|b0 bs] eqn:E.
      * injection Hb as <-. simpl. by simpl in Hlast.
      * apply Hfirst. by simpl in Hb.
    + intros k b b' Hk Hk'.
      pose proof (lookup_lt_Some _ _ _ Hk') as Hlen.
      rewrite length_app in Hlen. simpl in Hlen.
      rewrite lookup_app_l in Hk by lia.
      destruct (decide (S k < length d.1)%nat) as [Hlt|Hge].
      * rewrite lookup_app_l in Hk' by done. by apply (Hadj k).
      * assert (S k = length d.1) as Hk1 by lia.
        rewrite lookup_app_r, Hk1, Nat.sub_diag in Hk' by lia.
        injection Hk' as <-. simpl.
        rewrite last_lookup, <- Hk1 in Hlast. simpl in Hlast.
        by rewrite Hk in Hlast.
Qed.

(** Bars that follow one another and are not of negative width are in
    order: a bar ends at or before the start of every later bar. *)
Lemma bars_in_order (bs : list bar) :
  (∀ k b b', bs !! k = Some b → bs !! S k = Some b' →
             bar_left b' = bar_left b + bar_width b) →
  Forall (λ b, 0 <= bar_width b) bs →
  ∀ n k b b', bs !! k = Some b → bs !! (k + S n)%nat = Some b' →
              bar_left b + bar_width b <= bar_left b'.
Proof.
  intros Hadj Hpos. induction n as [|n IH]; intros k b b' Hk Hk'.
  - rewrite Nat.add_1_r in Hk'. rewrite (Hadj k b b' Hk Hk').
    apply Qle_refl.
  - replace (k + S (S n))%nat with (S (k + S n)) in Hk' by lia.
    destruct (lookup_lt_is_Some_2 bs (k + S n)) as [b1 Hb1].
    { apply lookup_lt_Some in Hk'. lia. }
    rewrite (Hadj _ b1 b' Hb1 Hk').
    apply Qle_trans with (bar_left b1); [by apply (IH k)|].
    rewrite <- (Qplus_0_r (bar_left b1)) at 1.
    apply Qplus_le_compat; [apply Qle_refl|].
    rewrite Forall_forall in Hpos. apply Hpos.
    by eapply list_elem_of_lookup_2.
Qed.

End chart_order.

(** X14. The bars drawn for a station, whatever the lookup tables: there is
    one bar per process of the station, all on the row of the station; the
    first bar starts at 0 and every other bar starts exactly where the bar
    before it ends, so the left edge of a bar is the running sum of the
    widths before it; and when no bar has a negative width, a bar ends at or
    before the start of every later bar of the row. (With a negative width
    the next bar starts inside the bar before it.) *)
Theorem chart_bars_end_to_end info_map color_map i s :
  ∃ bs,
    draw_station info_map color_map i s = bs
    ∧ length bs = length (processes s)
    ∧ Forall (λ b, bar_row b = i) bs
    ∧ (∀ b, bs !! 0%nat = Some b → bar_left b = 0)
    ∧ (∀ k b b', bs !! k = Some b → bs !! S k = Some b' →
                 bar_left b' = bar_left b + bar_width b)
    ∧ (∀ k b, bs !! k = Some b →
              bar_left b = fold_left Qplus (bar_width <$> take k bs) 0)
    ∧ (Forall (λ b, 0 <= bar_width b) bs →
       ∀ k k' b b', (k < k')%nat → bs !! k = Some b → bs !! k' = Some b' →
                    bar_left b + bar_width b <= bar_left b').
Proof.
  eexists. split; [done|].
  destruct (draw_layout info_map color_map i (processes s))
    as (Hlen & _ & Hrow & Hleft).
  destruct (draw_adjacent info_map color_map i (processes s))
    as (_ & Hfirst & Hadj).
  split; [done|]. split; [done|]. split; [done|]. split; [done|].
  split; [done|].
  intros Hpos k k' b b' Hlt Hk Hk'.
  apply (bars_in_order _ Hadj Hpos (k' - S k) k); [done|].
  by replace (k + S (k' - S k))%nat with k' by lia.
Qed.

Lemma chart_bars_end_to_end_witness :
  ∃ b b',
    draw_station
      (default ∅ (process_info_map (scenario_table "a" "b" "c")))
      (machine_color_map (scenario_table "a" "b" "c")) 0
      (close_station_A 1 1 (take 2 (scenario_table "a" "b" "c")))
    !! 0%nat = Some b
    ∧ draw_station
        (default ∅ (process_info_map (scenario_table "a" "b" "c")))
        (machine_color_map (scenario_table "a" "b" "c")) 0
        (close_station_A 1 1 (take 2 (scenario_table "a" "b" "c")))
      !! 1%nat = Some b'
    ∧ bar_left b + bar_width b <= bar_left b'.
Proof.
  destruct (chart_bars_end_to_end
              (default ∅ (process_info_map (scenario_table "a" "b" "c")))
              (machine_color_map (scenario_table "a" "b" "c")) 0
              (close_station_A 1 1 (take 2 (scenario_table "a" "b" "c"))))
    as (bs & <- & _ & _ & _ & _ & _ & Horder).
  eexists _, _. split; [vm_compute; reflexivity|].
  split; [vm_compute; reflexivity|].
  apply (Horder ltac:(vm_compute; repeat constructor; discriminate)
           0%nat 1%nat); [lia|vm_compute; reflexivity|vm_compute; reflexivity].
Defined.

Section chart_colors.

Lemma unique_from_spec values : ∀ seen,
  NoDup (unique_from seen values)
  ∧ ∀ x, x ∈ unique_from seen values ↔ x ∈ values ∧ x ∉ seen.
Proof.
  induction values as [|v values IH]; intros seen; simpl.
  - split; [apply NoDup_nil_2|]. intros x. split; [by intros ?%not_elem_of_nil|].
    by intros [?%not_elem_of_nil _].
  - case_bool_decide as Hv.
    + destruct (IH seen) as [Hnd Hin]. split; [done|].
      intros x. rewrite Hin. set_solver.
    + destruct (IH (v :: seen)) as [Hnd Hin]. split.
      * apply NoDup_cons. split; [|done]. rewrite Hin. set_solver.
      * intros x. rewrite elem_of_cons, Hin.
        destruct (decide (x = v)) as [->|Hne]; set_solver.
Qed.

Lemma NoDup_unique values : NoDup (unique values).
Proof. apply unique_from_spec. Qed.

Lemma elem_of_unique values x : x ∈ unique values ↔ x ∈ values.
Proof.
  unfold unique. rewrite (proj2 (unique_from_spec values [])).
  split; [by intros [? _]|]. intros Hx. split; [done|apply not_elem_of_nil].
Qed.

Lemma color_entries_other entries m x :
  x ∉ entries.*2 → color_entries entries m !! x = m !! x.
Proof.
  unfold color_entries. revert m.
  induction entries as [|[j y] entries IH]; intros m Hx; [done|].
  rewrite fmap_cons in Hx. apply not_elem_of_cons in Hx as [Hne Hx].
  simpl. rewrite IH by done. by apply lookup_insert_ne.
Qed.

Lemma color_entries_lookup entries m i x :
  NoDup entries.*2 → (i, x) ∈ entries →
  color_entries entries m !! x = Some (Tab20 (i mod tab20_size)).
Proof.
  revert m. induction entries as [|[j y] entries IH]; intros m Hnd Hin.
  { by apply not_elem_of_nil in Hin. }
  rewrite fmap_cons in Hnd. apply NoDup_cons in Hnd as [Hy Hnd].
  apply elem_of_cons in Hin as [[= <- <-]|Hin].
  - change (color_entries entries (<[x := Tab20 (i mod tab20_size)]> m) !! x
            = Some (Tab20 (i mod tab20_size))).
    rewrite color_entries_other by done. apply lookup_insert_eq.
  - by apply (IH (<[y := Tab20 (j mod tab20_size)]> m)).
Qed.

Lemma snd_enumerate (l : list string) : (imap pair l).*2 = l.
Proof.
  rewrite fmap_imap, (imap_ext _ (const Datatypes.id) l) by done.
  by rewrite imap_const, list_fmap_id.
Qed.

Lemma machine_color_of_index df i m :
  unique (machineType <$> df) !! i = Some m →
  machine_color_map df !! m = Some (Tab20 (i mod tab20_size)).
Proof.
  intros Hi. apply color_entries_lookup.
  - rewrite snd_enumerate. apply NoDup_unique.
  - by apply elem_of_lookup_imap_2.
Qed.

Lemma machine_color_of_row df p :
  p ∈ df →
  ∃ i, unique (machineType <$> df) !! i = Some (machineType p)
       ∧ machine_color_map df !! machineType p
         = Some (Tab20 (i mod tab20_size)).
Proof.
  intros Hp.
  assert (machineType p ∈ unique (machineType <$> df)) as Hin
    by (by apply elem_of_unique, list_elem_of_fmap_2).
  apply list_elem_of_lookup in Hin as [i Hi].
  exists i. split; [done|]. by apply machine_color_of_index.
Qed.

End chart_colors.

(** X15. Every machine type of the table has a colour of the palette, and
    when the table has at most 20 machine types, two rows have the same
    colour only if they have the same machine type. *)
Theorem machine_colors_distinct df p q :
  p ∈ df → q ∈ df →
  (∃ i, machine_color_map df !! machineType p = Some (Tab20 i)
        ∧ (i < tab20_size)%nat)
  ∧ ((length (unique (machineType <$> df)) ≤ tab20_size)%nat →
     machine_color_map df !! machineType p
     = machine_color_map df !! machineType q →
     machineType p = machineType q).
Proof.
  intros Hp Hq.
  destruct (machine_color_of_row df p Hp) as (i & Hi & Hcp).
  destruct (machine_color_of_row df q Hq) as (j & Hj & Hcq).
  split.
  - exists (i mod tab20_size)%nat. split; [done|].
    by apply Nat.mod_upper_bound.
  - intros Hlen. rewrite Hcp, Hcq. intros Heq.
    assert (i mod tab20_size = j mod tab20_size)%nat as Hmod by congruence.
    apply lookup_lt_Some in Hi as Hilt. apply lookup_lt_Some in Hj as Hjlt.
    rewrite !Nat.mod_small in Hmod by lia. subst j. congruence.
Qed.

Lemma machine_colors_distinct_witness :
  (∃ i,
     machine_color_map (scenario_table "a" "b" "c") !! "M1" = Some (Tab20 i)
     ∧ (i < tab20_size)%nat)
  ∧ ((length (unique (machineType <$> scenario_table "a" "b" "c"))
      ≤ tab20_size)%nat →
     machine_color_map (scenario_table "a" "b" "c") !! "M1"
     = machine_color_map (scenario_table "a" "b" "c") !! "M2" →
     "M1" = "M2").
Proof.
  apply (machine_colors_distinct (scenario_table "a" "b" "c")
           {| id := "A"; name := "a"; expectedTimeInMin := 4 # 10;
              machineType := "M1"; dependency := [] |}
           {| id := "C"; name := "c"; expectedTimeInMin := 5 # 10;
              machineType := "M2"; dependency := ["A"] |}).
  - apply list_elem_of_here.
  - apply list_elem_of_further, list_elem_of_further, list_elem_of_here.
Defined.

(** In both modes a station of the result holds rows of the table and its
    total is their sum. *)
Lemma allocation_station_rows df respect_dependencies throughput_target sts :
  allocate_processes_to_stations df respect_dependencies throughput_target
  = Some (Returned sts) →
  Forall (λ s, ∃ r, (∀ p, p ∈ r → p ∈ df)
                    ∧ processes s = summary <$> r
                    ∧ total_expected_time s == calculate_station_time r) sts.
Proof.
  destruct respect_dependencies.
  - intros (rows & -> & Hpl)%allocate_with_fuel_A. apply Forall_forall.
    intros s (i & r & Hr & ->)%elem_of_stations_of_rows_A.
    exists r. split; [|done]. intros p Hp.
    apply (pl_rows _ _ _ Hpl r); [by eapply list_elem_of_lookup_2|done].
  - rewrite allocate_B_returns. intros [= <-].
    destruct (allocate_groups_rows throughput_target df)
      as (rows & Hst & Hcat & _).
    eapply Forall2_Forall_r; [exact Hst|]. apply Forall_forall.
    intros r Hr s (Hps & Htot & _). exists r. split; [|done].
    intros p Hp.
    assert (p ∈ concat rows) as Hin by (apply elem_of_concat; by exists r).
    rewrite Hcat in Hin. apply elem_of_concat in Hin as (g & Hg & Hgs).
    apply list_elem_of_fmap in Hgs as (k & -> & _).
    by apply list_elem_of_filter in Hg as [_ ?].
Qed.

Lemma process_info_lookup df info_map p :
  process_info_map df = Some info_map → p ∈ df →
  info_map !! id p
  = Some {| info_expectedTimeInMin := expectedTimeInMin p;
            info_machineType := machineType p |}.
Proof.
  unfold process_info_map. case_bool_decide as Hids; [|done].
  intros [= <-] Hp. apply elem_of_list_to_map_1.
  - by rewrite <- list_fmap_compose.
  - by apply (list_elem_of_fmap_2
                (λ p, (id p, {| info_expectedTimeInMin := expectedTimeInMin p;
                                info_machineType := machineType p |}))).
Qed.

(** The bars of rows of the table: their widths are the durations. *)
Lemma draw_rows df info_map i r :
  process_info_map df = Some info_map → (∀ p, p ∈ r → p ∈ df) →
  let d := fold_left (draw_process info_map (machine_color_map df) i)
             (summary <$> r) ([], 0) in
  Forall2 (λ p b, p ∈ df ∧ bar_width b = expectedTimeInMin p
                  ∧ bar_label b = machineType p ∧ bar_color b ≠ Gray) r d.1
  ∧ d.2 = calculate_station_time r.
Proof.
  intros Hinfo. induction r as [|x r IH] using rev_ind; intros Hsub; simpl.
  { by split; [constructor|]. }
  rewrite fmap_app. csimpl. rewrite draw_snoc.
  destruct IH as [Hbars Hsum];
    [intros p Hp; apply Hsub, elem_of_app; by left|].
  assert (x ∈ df) as Hx by (apply Hsub, elem_of_app; right; by left).
  unfold draw_process at 1. simpl.
  rewrite (process_info_lookup df info_map x Hinfo Hx). simpl.
  destruct (machine_color_of_row df x Hx) as (j & _ & ->). simpl. split.
  - apply Forall2_app; [done|]. by repeat constructor.
  - by rewrite Hsum, calculate_station_time_snoc.
Qed.

(** X16. The chart of a result of the allocator, in either mode, on a table
    with distinct ids: the chart is drawn, every bar is the bar of the row of
    the table with the id of its process, with the duration of that row as
    width, its machine type as label and a colour of the palette (never the
    defaults 0, 'Unknown' and 'gray'), and the bars of a station add up to
    the total time of the station. *)
Theorem chart_of_allocation df respect_dependencies throughput_target sts :
  allocate_processes_to_stations df respect_dependencies throughput_target
  = Some (Returned sts) →
  NoDup (id <$> df) →
  ∃ info_map,
    visualize_station_allocation sts df
    = Some (concat (imap (draw_station info_map (machine_color_map df)) sts))
    ∧ ∀ i s, s ∈ sts →
        Forall2 (λ ps b, ∃ p, p ∈ df ∧ id p = ps_id ps
                              ∧ bar_width b = expectedTimeInMin p
                              ∧ bar_label b = machineType p
                              ∧ bar_color b ≠ Gray)
          (processes s) (draw_station info_map (machine_color_map df) i s)
        ∧ fold_left Qplus
            (bar_width <$> draw_station info_map (machine_color_map df) i s) 0
          == total_expected_time s.
Proof.
  intros Hrun Hids.
  destruct (process_info_map df) as [info_map|] eqn:Hinfo;
    [|unfold process_info_map in Hinfo; by rewrite bool_decide_eq_true_2 in Hinfo].
  exists info_map. split.
  { unfold visualize_station_allocation. by rewrite Hinfo. }
  intros i s Hs.
  pose proof (allocation_station_rows _ _ _ _ Hrun) as Hrows.
  rewrite Forall_forall in Hrows.
  destruct (Hrows s Hs) as (r & Hsub & Hps & Htot).
  destruct (draw_rows df info_map i r Hinfo Hsub) as [Hbars Hsum].
  destruct (draw_layout info_map (machine_color_map df) i (processes s))
    as (_ & Hlay & _).
  unfold draw_station. rewrite Hps in *. split.
  - apply Forall2_fmap_l. eapply Forall2_impl; [exact Hbars|].
    intros p b (Hp & Hw & Hl & Hc). by exists p.
  - by rewrite <- Hlay, Hsum, Htot.
Qed.

Lemma chart_of_allocation_witness :
  ∃ info_map,
    visualize_station_allocation
      (allocate_groups (scenario_table "a" "b" "c") 1)
      (scenario_table "a" "b" "c")
    = Some (concat
              (imap (draw_station info_map
                       (machine_color_map (scenario_table "a" "b" "c")))
                 (allocate_groups (scenario_table "a" "b" "c") 1)))
    ∧ ∀ i s, s ∈ allocate_groups (scenario_table "a" "b" "c") 1 →
        Forall2 (λ ps b, ∃ p, p ∈ scenario_table "a" "b" "c"
                              ∧ id p = ps_id ps
                              ∧ bar_width b = expectedTimeInMin p
                              ∧ bar_label b = machineType p
                              ∧ bar_color b ≠ Gray)
          (processes s)
          (draw_station info_map
             (machine_color_map (scenario_table "a" "b" "c")) i s)
        ∧ fold_left Qplus
            (bar_width
             <$> draw_station info_map
                   (machine_color_map (scenario_table "a" "b" "c")) i s) 0
          == total_expected_time s.
Proof.
  apply (chart_of_allocation (scenario_table "a" "b" "c") false 1).
  - vm_compute. reflexivity.
  - apply (bool_decide_unpack _). vm_compute. exact I.
Defined.

(** The bars of the three-process scenario: A and B side by side on the
    first row, C on the second. *)
Example scenario_chart :
  (λ b, (bar_row b, bar_label b, bar_color b))
  <$> default []
        (visualize_station_allocation
           (match allocate_processes_to_stations
                    (scenario_table "a" "b" "c") true 1 with
            | Some (Returned sts) => sts
            | _ => []
            end)
           (scenario_table "a" "b" "c"))
  = [ (0%nat, "M1", Tab20 0); (0%nat, "M1", Tab20 0); (1%nat, "M2", Tab20 1) ].
Proof. vm_compute. reflexivity. Qed.

(** X17. The validation stops at the first violation in table order: when
    the rows before [p] have only valid dependencies and [d] is the first
    dependency of [p] that is no id of the table, the error is the text
    [Process '<id of p>' has invalid dependency: '<d>'], whatever comes
    after. *)
Theorem validation_reports_first_violation df throughput_target
    before p after deps_before d deps_after :
  df = before ++ p :: after →
  (∀ q x, q ∈ before → x ∈ dependency q → x ∈ id <$> df) →
  dependency p = deps_before ++ d :: deps_after →
  (∀ x, x ∈ deps_before → x ∈ id <$> df) →
  d ∉ id <$> df →
  allocate_processes_to_stations df true throughput_target
  = Some (ValueError ("Process '" +:+ id p
                      +:+ "' has invalid dependency: '" +:+ d +:+ "'")).
Proof.
  intros Hdf Hbefore Hdeps Hdb Hd.
  unfold allocate_processes_to_stations, allocate_with_fuel,
    validate_dependencies.
  assert (∀ deps, (∀ x, x ∈ deps → x ∈ id <$> df) →
            first_missing (id <$> df) (deps ++ d :: deps_after) = Some d)
    as Hmiss.
  { induction deps as [|x deps IH]; intros Hok; simpl.
    - by rewrite bool_decide_eq_false_2.
    - rewrite bool_decide_eq_true_2 by (apply Hok; by left).
      apply IH. intros y Hy. apply Hok. by right. }
  assert (∀ rows, (∀ q x, q ∈ rows → x ∈ dependency q → x ∈ id <$> df) →
            validate_rows (id <$> df) (rows ++ p :: after) = Some (id p, d))
    as Hrows.
  { induction rows as [|q rows IH]; intros Hok; simpl.
    - by rewrite Hdeps, Hmiss.
    - rewrite (proj2 (first_missing_None _ _)) by (intros x; apply Hok; by left).
      apply IH. intros y x Hy. apply Hok. by right. }
  rewrite Hdf at 2. rewrite Hrows; [done|].
  intros q x Hq Hx. by apply (Hbefore q).
Qed.

Lemma validation_reports_first_violation_witness :
  allocate_processes_to_stations
    [ {| id := "A"; name := "a"; expectedTimeInMin := 4 # 10;
         machineType := "M1"; dependency := [] |};
      {| id := "B"; name := "b"; expectedTimeInMin := 3 # 10;
         machineType := "M1"; dependency := ["A"; "Z"; "Y"] |} ] true 1
  = Some (ValueError "Process 'B' has invalid dependency: 'Z'").
Proof.
  apply (validation_reports_first_violation _ 1
           [ {| id := "A"; name := "a"; expectedTimeInMin := 4 # 10;
                machineType := "M1"; dependency := [] |} ]
           {| id := "B"; name := "b"; expectedTimeInMin := 3 # 10;
              machineType := "M1"; dependency := ["A"; "Z"; "Y"] |}
           [] ["A"] "Z" ["Y"]).
  - reflexivity.
  - intros q x ->%list_elem_of_singleton Hx. by apply not_elem_of_nil in Hx.
  - reflexivity.
  - intros x ->%list_elem_of_singleton. apply list_elem_of_here.
  - apply (bool_decide_unpack _). vm_compute. exact I.
Defined.

Lemma Qceiling_unit (x : Q) : 0 < x → x <= 1 → Qceiling x = 1%Z.
Proof.
  intros Hpos Hle.
  assert (0 < Qceiling x)%Z
    by (rewrite Zlt_Qlt; eapply Qlt_le_trans; [exact Hpos|apply Qle_ceiling]).
  assert (Qceiling x - 1 < 1)%Z
    by (rewrite Zlt_Qlt; eapply Qlt_le_trans; [apply Qceiling_lt|exact Hle]).
  lia.
Qed.

(** X18. In the throughput-grouped mode, when the target is at most 1 and
    every row lasts longer than 0 and at most the target, every station
    requires exactly one machine, as in the dependency-respecting mode. *)
Theorem mode_B_one_machine df throughput_target :
  throughput_target <= 1 →
  (∀ p, p ∈ df → 0 < expectedTimeInMin p
                 ∧ expectedTimeInMin p <= throughput_target) →
  ∃ sts,
    allocate_processes_to_stations df false throughput_target
    = Some (Returned sts)
    ∧ Forall (λ s, machines_required s = 1%Z) sts.
Proof.
  intros Hone Hfit. eexists. split; [apply allocate_B_returns|].
  apply (allocate_groups_stations df throughput_target _
           (λ sp tot, (sp = [] ∧ tot = 0)
                      ∨ (sp ≠ [] ∧ 0 < tot ∧ tot <= throughput_target))).
  - by left.
  - intros sp tot p Hp HJ Hle. right. split; [by destruct sp|].
    split; [|done]. destruct (Hfit p Hp) as [Hpos _].
    destruct HJ as [[-> ->]|(_ & Htot & _)].
    + by rewrite Qplus_0_l.
    + rewrite <- (Qplus_0_l 0). apply Qplus_lt_le_compat; [done|].
      by apply Qlt_le_weak.
  - intros k sp tot p Hp HJ Hover. destruct (Hfit p Hp) as [Hpos Hle].
    split; [|by right].
    destruct HJ as [[-> ->]|(_ & Htot & Htle)]; simpl.
    + exfalso. apply Hover. by rewrite Qplus_0_l.
    + apply Qceiling_unit; [done|]. by eapply Qle_trans.
  - intros k sp tot [[-> ->]|(_ & Htot & Htle)] Hsp; [done|]. simpl.
    apply Qceiling_unit; [done|]. by eapply Qle_trans.
Qed.

Lemma mode_B_one_machine_witness :
  ∃ sts,
    allocate_processes_to_stations (scenario_table "a" "b" "c") false 1
    = Some (Returned sts)
    ∧ Forall (λ s, machines_required s = 1%Z) sts.
Proof.
  apply (mode_B_one_machine (scenario_table "a" "b" "c") 1).
  - vm_compute. discriminate.
  - intros p Hp. unfold scenario_table in Hp.
    repeat (apply elem_of_cons in Hp as [->|Hp]);
      try (by apply not_elem_of_nil in Hp);
      split; vm_compute; done.
Defined.
